(** * DocChat ingestion pipeline: a shallow embedding and its properties

    The development follows the JavaScript sources of the API:
    - [utilities.js]  ([isHttpUrl], [cleanUrl], [cleanText], [chunk],
      [withRetry]),
    - [chunk.js]      ([chunkText]),
    - [embed.js]      ([embedTexts]),
    - [pinecone.js]   ([getIndexForNamespace], [upsertVectors]),
    - [scraper.js]    ([fetchViaHttp], [fetchViaBrowser], [scrapeText]),
    - [routes/crawl.js] (the [/ingest-crawl] loop) and
      [routes/scrape.js] (the [/scrape] handler).

    Conventions.
    - A JavaScript string is the list of its UTF-16 code units ([jstring]);
      addresses, which the URL serializer keeps in ASCII, are byte strings
      ([addr]).
    - Array lengths, indices, depths and counters are [nat]; delays in
      milliseconds are [Z]; the real-valued jitter arithmetic is carried
      out in [Q].
    - Effectful code lives in the monad [M]: explicit state passing over
      the outside world plus a log of observable events, with a result
      that is a value, a thrown exception, or non-termination of a loop
      whose fuel ran out. *)

From Stdlib Require Import Ascii String QArith Qround Lqa.
From stdpp Require Import gmap strings list pretty.

Local Open Scope nat_scope.
Local Open Scope list_scope.

(* ===================================================================== *)
(** * JavaScript strings *)
(* ===================================================================== *)

Module JsString.

(** A string is a sequence of UTF-16 code units. *)
Abbreviation jstring := (list N).

(** A literal, for examples: every character of a Rocq string is read as
    the code unit with the same number. *)
Definition lit (s : string) : jstring :=
  map N_of_ascii (list_ascii_of_string s).

(** [WhiteSpace] and [LineTerminator] of ECMAScript; this is the set that
    [String.prototype.trim] removes and that [\s] matches. *)
Definition is_space (c : N) : bool :=
  ((9 <=? c) && (c <=? 13) ||
   (c =? 32) || (c =? 160) || (c =? 5760) ||
   ((8192 <=? c) && (c <=? 8202)) ||
   (c =? 8232) || (c =? 8233) || (c =? 8239) || (c =? 8287) ||
   (c =? 12288) || (c =? 65279))%N.

Fixpoint trimStart (s : jstring) : jstring :=
  match s with
  | c :: s' => if is_space c then trimStart s' else s
  | [] => []
  end.

Definition trimEnd (s : jstring) : jstring := rev (trimStart (rev s)).

(** [s.trim()] *)
Definition trim (s : jstring) : jstring := trimEnd (trimStart s).

(** [a.slice(i, j)] for integers [0 <= i], [0 <= j]. *)
Definition slice {A} (a : list A) (i j : nat) : list A :=
  take (j - i) (drop i a).

(** Truthiness of a string: [""] is falsy. *)
Definition truthy {A} (s : list A) : bool :=
  match s with [] => false | _ => true end.

End JsString.
Import JsString.

(* ===================================================================== *)
(** * Addresses and the runtime's [URL] class *)
(* ===================================================================== *)

Module Url.

(** An address is a byte string: the URL serializer only emits ASCII. *)
Abbreviation addr := (list ascii).

(** A literal, for examples. *)
Definition s (x : string) : addr := list_ascii_of_string x.

Definition ascii_in (lo hi c : ascii) : bool :=
  ((nat_of_ascii lo <=? nat_of_ascii c) && (nat_of_ascii c <=? nat_of_ascii hi))%nat.

Definition is_upper (c : ascii) : bool := ascii_in "A" "Z" c.
Definition is_lower (c : ascii) : bool := ascii_in "a" "z" c.
Definition is_alpha (c : ascii) : bool := is_upper c || is_lower c.
Definition is_digit (c : ascii) : bool := ascii_in "0" "9" c.
Definition is_alnum (c : ascii) : bool := is_alpha c || is_digit c.

Definition ch_lower (c : ascii) : ascii :=
  if is_upper c then ascii_of_nat (nat_of_ascii c + 32) else c.

(** [x.toLowerCase()] on an ASCII string. *)
Definition toLowerCase (x : addr) : addr := map ch_lower x.

Definition one_of (cs : string) (c : ascii) : bool :=
  bool_decide (c ∈ list_ascii_of_string cs).

(** Splits [l] in front of the first character on which [stop] holds. *)
Fixpoint break (stop : ascii → bool) (l : addr) : addr * addr :=
  match l with
  | [] => ([], [])
  | c :: l' =>
      if stop c then ([], l)
      else let '(a, b) := break stop l' in (c :: a, b)
  end.

Fixpoint startsWith (p x : addr) : bool :=
  match p, x with
  | [], _ => true
  | a :: p', b :: x' => bool_decide (a = b) && startsWith p' x'
  | _ :: _, [] => false
  end.

Definition endsWith (p x : addr) : bool := startsWith (rev p) (rev x).

(** [x.includes(p)] *)
Fixpoint includes (p x : addr) : bool :=
  startsWith p x || match x with [] => false | _ :: x' => includes p x' end.

(** A parsed address, component by component, each as the serializer
    prints it. [authority] is [userinfo@host:port]; it is [None] for an
    address without the [//] part. *)
Record URL := mkURL {
  scheme : addr;
  authority : option addr;
  path : addr;
  query : option addr;
  fragment : option addr
}.

#[export] Instance URL_eq_dec : EqDecision URL.
Proof. solve_decision. Defined.

(** The schemes that the URL Standard calls special; [file] has rules of
    its own and is left with the other schemes here. *)
Definition special (sch : addr) : bool :=
  bool_decide (sch ∈ [s "http"; s "https"; s "ws"; s "wss"; s "ftp"]).

Definition scheme_char (c : ascii) : bool := is_alnum c || one_of "+-." c.

Definition valid_scheme (sch : addr) : bool :=
  match sch with
  | [] => false
  | c :: _ => is_alpha c && forallb scheme_char sch
  end.

(** Query and fragment that follow the path. *)
Definition parse_tail (rest : addr) : option addr * option addr :=
  match rest with
  | "?"%char :: r =>
      let '(q, r') := break (one_of "#") r in
      (Some q, match r' with _ :: f => Some f | [] => None end)
  | "#"%char :: f => (None, Some f)
  | _ => (None, None)
  end.

(** [new URL(x)], without a base; [None] is the [TypeError] that the
    constructor throws.

    This follows the basic URL parser of the URL Standard on addresses
    that are written the way the serializer prints them, and on the
    looser spellings of the scheme and of the slashes after it:
    - an address without a scheme (a relative reference) is rejected;
    - the scheme is lower-cased;
    - after a special scheme any run of slashes and backslashes is
      skipped, the authority runs up to the next [/ \ ? #] and must not
      be empty, and an empty path reads as [/];
    - after another scheme, [//] introduces an authority, and without it
      the rest is the path (an opaque path when it does not start with
      [/]);
    - the query runs from [?] to [#], the fragment from [#] to the end.
    What the standard does beyond splitting is not modelled:
    percent-encoding of characters the components may not hold, removal
    of dot segments, the host parser (case, IDNA, numeric hosts), the
    default ports, and the stripping of control characters and spaces. *)
Definition URL_new (x : addr) : option URL :=
  let '(sch, rest) := break (λ c, negb (scheme_char c)) x in
  match rest with
  | ":"%char :: rest =>
      if valid_scheme sch then
        let sch := toLowerCase sch in
        if special sch then
          let '(_, rest) := break (λ c, negb (one_of "/\" c)) rest in
          let '(auth, rest) := break (one_of "/\?#") rest in
          let '(p, rest) := break (one_of "?#") rest in
          let '(q, f) := parse_tail rest in
          match auth with
          | [] => None
          | _ => Some (mkURL sch (Some auth) (match p with [] => s "/" | _ => p end) q f)
          end
        else if startsWith (s "//") rest then
          let '(auth, rest) := break (one_of "/?#") (drop 2 rest) in
          let '(p, rest) := break (one_of "?#") rest in
          let '(q, f) := parse_tail rest in
          Some (mkURL sch (Some auth) p q f)
        else
          let '(p, rest) := break (one_of "?#") rest in
          let '(q, f) := parse_tail rest in
          Some (mkURL sch None p q f)
      else None
  | _ => None
  end.

(** Query and fragment, as the serializer prints them. *)
Definition print_tail (q f : option addr) : addr :=
  match q with Some q => s "?" ++ q | None => [] end ++
  match f with Some f => s "#" ++ f | None => [] end.

(** [url.toString()] / [url.href]: the URL serializer. *)
Definition toString (u : URL) : addr :=
  scheme u ++ s ":" ++
  match authority u with Some a => s "//" ++ a | None => [] end ++
  path u ++
  print_tail (query u) (fragment u).

(** [url.protocol] *)
Definition protocol (u : URL) : addr := scheme u ++ s ":".

(** [url.pathname] *)
Definition pathname (u : URL) : addr := path u.

(** The part of the authority after the user information. *)
Fixpoint hostport (a : addr) : addr :=
  match a with
  | [] => []
  | c :: a' => if bool_decide ("@"%char ∈ a') then hostport a' else
               if bool_decide (c = "@"%char) then a' else a
  end.

(** [url.origin]: scheme, host and port of a special address, and the
    string [null] otherwise. *)
Definition origin (u : URL) : addr :=
  match authority u with
  | Some a => if special (scheme u) then scheme u ++ s "://" ++ hostport a else s "null"
  | None => s "null"
  end.

(** [url.hash = ""]: the fragment is removed. *)
Definition clear_hash (u : URL) : URL :=
  mkURL (scheme u) (authority u) (path u) (query u) None.

(** An opaque path belongs to an address without authority whose path
    does not start with a slash; the [pathname] setter leaves it alone. *)
Definition opaque (u : URL) : bool :=
  match authority u with
  | None => negb (startsWith (s "/") (path u))
  | Some _ => false
  end.

(** [url.pathname = p], for a [p] that starts with a slash and holds no
    character that the path state would escape. *)
Definition set_pathname (u : URL) (p : addr) : URL :=
  if opaque u then u
  else mkURL (scheme u) (authority u) p (query u) (fragment u).





(** ** [URLSearchParams]: the [application/x-www-form-urlencoded] format *)

Definition hex_digit (n : nat) : ascii :=
  match String.get n "0123456789ABCDEF" with Some c => c | None => "0"%char end.

Definition hex_value (c : ascii) : option nat :=
  if is_digit c then Some (nat_of_ascii c - 48)
  else if ascii_in "A" "F" c then Some (nat_of_ascii c - 55)
  else if ascii_in "a" "f" c then Some (nat_of_ascii c - 87)
  else None.

(** Percent-decoding of a byte sequence: [%XY] with two hexadecimal
    digits is the byte [XY]; every other byte stands for itself. *)
Fixpoint percent_decode (x : addr) : addr :=
  match x with
  | [] => []
  | c :: x' =>
      match x' with
      | h1 :: h2 :: x'' =>
          match bool_decide (c = "%"%char), hex_value h1, hex_value h2 with
          | true, Some a, Some b => ascii_of_nat (16 * a + b) :: percent_decode x''
          | _, _, _ => c :: percent_decode x'
          end
      | _ => c :: percent_decode x'
      end
  end.

(** Splits [x] at every character on which [sep] holds. *)
Fixpoint split_on (sep : ascii → bool) (x : addr) : list addr :=
  match x with
  | [] => [[]]
  | c :: x' =>
      if sep c then [] :: split_on sep x'
      else match split_on sep x' with
           | w :: ws => (c :: w) :: ws
           | [] => [[c]]
           end
  end.

Definition plus_to_space (x : addr) : addr :=
  map (λ c, if bool_decide (c = "+"%char) then " "%char else c) x.

(** One sequence of the urlencoded parser: name and value are split at
    the first [=]; [+] reads as a space; both are percent-decoded. The
    decoded bytes are kept as they are (the standard goes on to read them
    as UTF-8). *)
Definition parse_sequence (w : addr) : addr * addr :=
  let '(n, r) := break (one_of "=") w in
  let v := match r with _ :: v => v | [] => [] end in
  (percent_decode (plus_to_space n), percent_decode (plus_to_space v)).

(** The urlencoded parser: the sequences between [&], the empty ones
    dropped. *)
Definition parse_urlencoded (q : addr) : list (addr * addr) :=
  map parse_sequence (filter (λ w, w ≠ []) (split_on (one_of "&") q)).

Definition urlencoded_safe (c : ascii) : bool := is_alnum c || one_of "*-._" c.

Definition encode_byte (c : ascii) : addr :=
  if urlencoded_safe c then [c]
  else if bool_decide (c = " "%char) then ["+"%char]
  else ["%"%char; hex_digit (nat_of_ascii c / 16); hex_digit (nat_of_ascii c mod 16)].

Definition encode (x : addr) : addr := concat (map encode_byte x).

(** The urlencoded serializer. *)
Fixpoint serialize_urlencoded (l : list (addr * addr)) : addr :=
  match l with
  | [] => []
  | [(n, v)] => encode n ++ s "=" ++ encode v
  | (n, v) :: l' => encode n ++ s "=" ++ encode v ++ s "&" ++ serialize_urlencoded l'
  end.

(** The list that [url.searchParams] holds when the address is created. *)
Definition searchParams (u : URL) : list (addr * addr) :=
  match query u with
  | Some q => parse_urlencoded q
  | None => []
  end.

(** [params.delete(k)] on the list. *)
Definition params_delete (k : addr) (l : list (addr * addr)) : list (addr * addr) :=
  filter (λ nv, nv.1 ≠ k) l.

(** The update steps that follow a change of the list: the query of the
    address becomes the serialized list, or null when that is empty. *)
Definition update_query (u : URL) (l : list (addr * addr)) : URL :=
  mkURL (scheme u) (authority u) (path u)
        (match serialize_urlencoded l with [] => None | q => Some q end)
        (fragment u).

End Url.

(* ===================================================================== *)
(** * utilities.js: addresses *)
(* ===================================================================== *)

Module Utilities.
Import Url.

(** [isHttpUrl(str)] *)
Definition isHttpUrl (str : addr) : bool :=
  match URL_new str with
  | Some u => bool_decide (protocol u = s "http:") || bool_decide (protocol u = s "https:")
  | None => false
  end.

Definition DEFAULT_STRIP_PARAMS : gset addr :=
  list_to_set
    [s "utm_source"; s "utm_medium"; s "utm_campaign"; s "utm_term";
     s "utm_content"; s "gclid"; s "fbclid"].

(** [for (const k of Array.from(url.searchParams.keys()))
       if (stripParams.has(k)) url.searchParams.delete(k);]
    over the snapshot [keys]; the state is the list held by
    [url.searchParams] and the address it updates. *)
Definition strip_loop (stripParams : gset addr) (keys : list addr)
    (st : list (addr * addr) * URL) : list (addr * addr) * URL :=
  foldl (λ st k,
           if bool_decide (k ∈ stripParams) then
             let l := params_delete k st.1 in (l, update_query st.2 l)
           else st)
        st keys.


Fixpoint drop_slashes (x : addr) : addr :=
  match x with
  | "/"%char :: x' => drop_slashes x'
  | _ => x
  end.

(** [p.replace(/\/+$/, "/")] *)
Definition replace_trailing_slashes (p : addr) : addr :=
  if endsWith (s "/") p then rev (drop_slashes (rev p)) ++ s "/" else p.

(** [if (stripParams && stripParams.size) { for ... }]; an empty
    [stripParams] also stands for a missing one. *)
Definition strip_tracking (stripParams : gset addr) (url : URL) : URL :=
  if bool_decide (stripParams ≠ ∅) then
    (strip_loop stripParams (map fst (searchParams url))
                (searchParams url, url)).2
  else url.

(** [if (url.pathname !== "/" && url.pathname.endsWith("/"))
       url.pathname = url.pathname.replace(/\/+$/, "/");] *)
Definition fix_trailing_slash (url : URL) : URL :=
  if bool_decide (pathname url ≠ s "/") && endsWith (s "/") (pathname url)
  then set_pathname url (replace_trailing_slashes (pathname url))
  else url.

(** [cleanUrl(u, { stripParams })]; [None] is the [TypeError] of
    [new URL(u)]. *)
Definition cleanUrl (stripParams : gset addr) (u : addr) : option addr :=
  match URL_new u with
  | None => None
  | Some url =>
      let url := clear_hash url in
      let url := strip_tracking stripParams url in
      let url := fix_trailing_slash url in
      Some (toString url)
  end.

End Utilities.

(* ===================================================================== *)
(** * utilities.js: text *)
(* ===================================================================== *)

Module Text.

(** Case folding of the [i] flag: without the [u] flag only the ASCII
    letters fold onto ASCII letters. *)
Definition fold_case (c : N) : N :=
  if ((65 <=? c) && (c <=? 90))%N then (c + 32)%N else c.

(** [pat] matches at the head of [x], letter case ignored when [ci]. *)
Fixpoint matches_at (ci : bool) (pat x : jstring) : bool :=
  match pat, x with
  | [], _ => true
  | a :: pat', b :: x' =>
      (if ci then (fold_case a =? fold_case b)%N else (a =? b)%N)
      && matches_at ci pat' x'
  | _ :: _, [] => false
  end.

(** The number of code units up to and including the first occurrence of
    [close] in [x]: the shortest [[\s\S]*?close]. *)
Fixpoint lazy_until (ci : bool) (close x : jstring) : option nat :=
  if matches_at ci close x then Some (length close)
  else match x with
       | [] => None
       | _ :: x' => S <$> lazy_until ci close x'
       end.

(** [x.replace(/open[\s\S]*?close/g, "")]. The scan goes from left to
    right; [skip] counts the code units of the current match that are
    still to be dropped. *)
Fixpoint remove_blocks_from (ci : bool) (open close : jstring) (skip : nat)
    (x : jstring) : jstring :=
  match x with
  | [] => []
  | c :: x' =>
      match skip with
      | S k => remove_blocks_from ci open close k x'
      | 0 =>
          match (if matches_at ci open x
                 then lazy_until ci close (drop (length open) x) else None) with
          | Some n => remove_blocks_from ci open close (length open + n - 1) x'
          | None => c :: remove_blocks_from ci open close 0 x'
          end
      end
  end.

Definition remove_blocks (ci : bool) (open close : string) (x : jstring) : jstring :=
  remove_blocks_from ci (lit open) (lit close) 0 x.

(** The length of [[^>]+>] at the head of [x], if it matches there. *)
Fixpoint tag_body (x : jstring) : option nat :=
  match x with
  | [] => None
  | c :: x' =>
      if (c =? 62)%N then None
      else match x' with
           | [] => None
           | c' :: _ => if (c' =? 62)%N then Some 2 else S <$> tag_body x'
           end
  end.

(** [x.replace(/<[^>]+>/g, " ")] *)
Fixpoint replace_tags_from (skip : nat) (x : jstring) : jstring :=
  match x with
  | [] => []
  | c :: x' =>
      match skip with
      | S k => replace_tags_from k x'
      | 0 =>
          match (if (c =? 60)%N then tag_body x' else None) with
          | Some n => 32%N :: replace_tags_from n x'
          | None => c :: replace_tags_from 0 x'
          end
      end
  end.

Definition replace_tags (x : jstring) : jstring := replace_tags_from 0 x.

(** [x.replace(/\s+/g, " ")]; [in_run] tells that the previous code unit
    was white space. *)
Fixpoint collapse_spaces_from (in_run : bool) (x : jstring) : jstring :=
  match x with
  | [] => []
  | c :: x' =>
      if is_space c then
        if in_run then collapse_spaces_from true x'
        else 32%N :: collapse_spaces_from true x'
      else c :: collapse_spaces_from false x'
  end.

Definition collapse_spaces (x : jstring) : jstring := collapse_spaces_from false x.

(** [cleanText(html)] *)
Definition cleanText (html : jstring) : jstring :=
  trim
    (collapse_spaces
       (replace_tags
          (remove_blocks true "<noscript" "</noscript>"
             (remove_blocks false "<!--" "-->"
                (remove_blocks true "<style" "</style>"
                   (remove_blocks true "<script" "</script>" html)))))).

(** [safeSlice(str, max)]: the ellipsis is U+2026. *)
Definition safeSlice (str : jstring) (max : nat) : jstring :=
  if max <? length str then slice str 0 max ++ [8230%N] else str.

End Text.

(* ===================================================================== *)
(** * chunk.js *)
(* ===================================================================== *)

Module Chunker.

(** The loop of [chunkText]:
    [for (let i = 0; i < text.length; i += (maxChars - overlap))].
    [fuel] bounds the number of times the loop condition is evaluated;
    [None] stands for a loop that is still running when the fuel is spent.
    With [overlap >= maxChars] the index never passes [text.length]
    (it stays put or moves backwards), which the truncated subtraction
    renders as a step of [0]. *)
Fixpoint chunkText_loop (fuel : nat) (text : jstring) (maxChars overlap : nat)
    (i : nat) (chunks : list jstring) : option (list jstring) :=
  match fuel with
  | 0 => None
  | S fuel' =>
      if i <? length text then
        let piece := trim (slice text i (i + maxChars)) in
        chunkText_loop fuel' text maxChars overlap (i + (maxChars - overlap))
          (if truthy piece then chunks ++ [piece] else chunks)
      else Some chunks
  end.

(** [chunkText(text, maxChars, overlap)]. The loop condition is evaluated
    at most [text.length + 1] times when the step is positive. *)
Definition chunkText (text : jstring) (maxChars overlap : nat)
    : option (list jstring) :=
  chunkText_loop (S (length text)) text maxChars overlap 0 [].

(** The same loop, recording for every emitted chunk the half-open span
    [(start, end)] of source positions that the chunk occupies: the
    window starts at [i], and [trim] removes the white space in front of
    the piece. *)
Fixpoint chunkSpans_loop (fuel : nat) (text : jstring) (maxChars overlap : nat)
    (i : nat) (spans : list (nat * nat)) : option (list (nat * nat)) :=
  match fuel with
  | 0 => None
  | S fuel' =>
      if i <? length text then
        let window := slice text i (i + maxChars) in
        let piece := trim window in
        let start := i + (length window - length (trimStart window)) in
        chunkSpans_loop fuel' text maxChars overlap (i + (maxChars - overlap))
          (if truthy piece then spans ++ [(start, start + length piece)]
           else spans)
      else Some spans
  end.

Definition chunkSpans (text : jstring) (maxChars overlap : nat)
    : option (list (nat * nat)) :=
  chunkSpans_loop (S (length text)) text maxChars overlap 0 [].

(** ** The chunker as the specification words it *)

(** The window of size [maxChars] at offset [i]. *)
Definition window (text : jstring) (maxChars i : nat) : jstring :=
  take maxChars (drop i text).

(** Offsets [0, step, 2*step, ...] below [len]; [n] bounds their number. *)
Fixpoint offsets_from (n : nat) (len step i : nat) : list nat :=
  match n with
  | 0 => []
  | S n' => if i <? len then i :: offsets_from n' len step (i + step) else []
  end.

Definition offsets (len step : nat) : list nat := offsets_from len len step 0.

(** Trimmed windows at the offsets advancing by [maxChars - overlap],
    without the ones that trim to the empty string. *)
Definition spec_chunks (text : jstring) (maxChars overlap : nat) : list jstring :=
  filter (λ p, p ≠ [])
    (map (λ i, trim (window text maxChars i))
         (offsets (length text) (maxChars - overlap))).

(** The claim about overlaps, as stated: every two consecutive emitted
    chunks, the last pair apart, share exactly [overlap] positions of the
    source text. *)
Definition consecutive_overlap_exact (text : jstring) (maxChars overlap : nat) : Prop :=
  ∀ spans k a1 b1 a2 b2,
    chunkSpans text maxChars overlap = Some spans →
    spans !! k = Some (a1, b1) →
    spans !! (S k) = Some (a2, b2) →
    S (S k) < length spans →
    (Z.of_nat b1 - Z.of_nat a2 = Z.of_nat overlap)%Z.

End Chunker.

(* ===================================================================== *)
(** * Effects: the outside world, exceptions, loops that may not end *)
(* ===================================================================== *)

Module Effects.
Import Url.

(** A thrown value. [Undefined] is what [throw lastErr] throws when
    [lastErr] was never assigned. *)
Inductive exn :=
  | Undefined
  | Error (msg : string)
  | TypeError (msg : string).

(** The record that is written to the vector store. *)
Record metadata := mkMetadata {
  md_url : addr;
  md_title : jstring;
  md_chunk : nat;
  md_text : jstring
}.

Record vector := mkVector {
  id : string;
  values : list Q;
  meta : option metadata
}.

(** What [fetch] resolves to. *)
Record response := mkResponse {
  res_ok : bool;
  res_status : nat;
  res_content_type : option addr;
  res_text : jstring
}.

(** What a browser session yields: the [innerText] picked by
    [page.evaluate] before it is trimmed, and [page.content()]. *)
Record rendered := mkRendered {
  innerText : jstring;
  content : jstring
}.

(** The observable events of a run, in the order in which they happen.
    [EvVisit], [EvFetched] and [EvScraped] do not change what the program
    computes; they record that it reached a program point. *)
Inductive event :=
  | EvSleep (ms : Z)                               (* [await sleep(ms)] *)
  | EvUpserted (ns : option addr) (batch : list vector)
                                                   (* [index.upsert(batch)] resolved *)
  | EvVisit (url : addr) (depth : nat)             (* the crawl loop passed its guard *)
  | EvFetched (url : addr) (ok : bool)             (* outcome of [fetchHtml(url)] *)
  | EvScraped (url : addr) (ok : bool).            (* outcome of [scrapeText(url)] *)


(** The batches that the store accepted, in order, each with the index
    it was written to. *)
Definition commits (l : list event) : list (option addr * list vector) :=
  omap (λ e, match e with EvUpserted ns b => Some (ns, b) | _ => None end) l.




(** The events of the vector store writer and of the retry wrapper. *)
Definition store_event (e : event) : Prop :=
  match e with
  | EvSleep _ | EvUpserted _ _ => True
  | _ => False
  end.

(** The services that the program calls. Each call may change the state
    [W] of the world and may fail. *)
Class Runtime (W : Type) := {
  (** [fetch(url, ...)] with its abort timer *)
  rt_fetch : addr → W → (exn + response) * W;
  (** the browser session of [fetchViaBrowser], from [launch] to [close] *)
  rt_render : addr → W → (exn + rendered) * W;
  (** the [href] attributes of [$("a[href]")] *)
  rt_hrefs : jstring → list addr;
  (** [$("title").first().text()] *)
  rt_title : jstring → jstring;
  (** [new URL(raw, base)] *)
  rt_resolve : addr → addr → option URL;
  (** [openai.embeddings.create], mapped to the embeddings *)
  rt_embed : list jstring → W → (exn + list (list Q)) * W;
  (** [index.upsert(batch)] on the index of a namespace *)
  rt_upsert : option addr → list vector → W → (exn + unit) * W;
  (** [Math.random()] *)
  rt_random : W → Q * W;
  (** [Date.now()] *)
  rt_now : W → nat * W;
  (** [process.env.PINECONE_NAMESPACE] *)
  rt_PINECONE_NAMESPACE : option addr
}.

Inductive Res (A : Type) :=
  | Ok (a : A)
  | Throw (e : exn)
  | Diverge.
Arguments Ok {A} a.
Arguments Throw {A} e.
Arguments Diverge {A}.

Record St (W : Type) := mkSt { world : W; log : list event }.
Arguments mkSt {W} world log.
Arguments world {W} _.
Arguments log {W} _.

Definition M (W A : Type) : Type := St W → Res A * St W.

Section Monad.
Context {W : Type}.

Definition ret {A} (a : A) : M W A := λ st, (Ok a, st).

Definition bind {A B} (m : M W A) (k : A → M W B) : M W B :=
  λ st, match m st with
        | (Ok a, st') => k a st'
        | (Throw e, st') => (Throw e, st')
        | (Diverge, st') => (Diverge, st')
        end.

Definition throw {A} (e : exn) : M W A := λ st, (Throw e, st).

Definition diverge {A} : M W A := λ st, (Diverge, st).

(** [try { m } catch (e) { ... }]: the outcome of [m] as a value. *)
Definition try {A} (m : M W A) : M W (exn + A) :=
  λ st, match m st with
        | (Ok a, st') => (Ok (inr a), st')
        | (Throw e, st') => (Ok (inl e), st')
        | (Diverge, st') => (Diverge, st')
        end.

Definition emit (e : event) : M W unit :=
  λ st, (Ok tt, mkSt (world st) (log st ++ [e])).

(** A call of a service that may fail. *)
Definition call {A} (f : W → (exn + A) * W) : M W A :=
  λ st, match f (world st) with
        | (inr a, w) => (Ok a, mkSt w (log st))
        | (inl e, w) => (Throw e, mkSt w (log st))
        end.

(** A call of a service that cannot fail. *)
Definition ask {A} (f : W → A * W) : M W A :=
  λ st, let '(a, w) := f (world st) in (Ok a, mkSt w (log st)).

(** The result of a loop run with fuel. *)
Definition total {A} (o : option A) : M W A :=
  match o with Some a => ret a | None => diverge end.

(** The result of a function that throws a [TypeError]. *)
Definition orTypeError {A} (o : option A) (msg : string) : M W A :=
  match o with Some a => ret a | None => throw (TypeError msg) end.

(** [await sleep(ms)] *)
Definition sleep (ms : Z) : M W unit := emit (EvSleep ms).

(** A computation that returns or throws and adds nothing to the log. *)
Definition silent {A} (m : M W A) : Prop :=
  ∀ st, (m st).1 ≠ Diverge ∧ log (m st).2 = log st.

End Monad.

Notation "'let*' x ':=' m 'in' k" := (bind m (λ x, k))
  (at level 10, x name, m at level 100, k at level 200).
Notation "m ';;' k" := (bind m (λ _, k))
  (at level 100, k at level 200, right associativity).

End Effects.

(* ===================================================================== *)
(** * utilities.js: batching and retry *)
(* ===================================================================== *)

Module Retry.
Import Effects.

(** [clampInt(val, { min, max, fallback })]; [val] is [Number(val)] when
    that is finite and [None] otherwise. [Math.trunc] rounds towards
    zero. *)
Definition trunc (q : Q) : Z := if Qle_bool 0 q then Qfloor q else Qceiling q.

Definition clampInt (val : option Q) (min max fallback : Z) : Z :=
  match val with
  | None => fallback
  | Some n => Z.max min (Z.min max (trunc n))
  end.

(** The loop of [chunk]: [for (let i = 0; i < arr.length; i += size)].
    [None]: the loop is still running when the fuel is spent, as it is
    for [size = 0] on a non-empty array. *)
Fixpoint chunk_loop {A} (fuel : nat) (arr : list A) (size : nat) (i : nat)
    (out : list (list A)) : option (list (list A)) :=
  match fuel with
  | 0 => None
  | S fuel' =>
      if i <? length arr then
        chunk_loop fuel' arr size (i + size) (out ++ [slice arr i (i + size)])
      else Some out
  end.

(** [chunk(arr, size)] *)
Definition chunk {A} (arr : list A) (size : nat) : option (list (list A)) :=
  chunk_loop (S (length arr)) arr size 0 [].

(** The options of [withRetry]; a field that is [None] is absent and
    takes its default in the destructuring
    [{ tries = 3, baseDelayMs = 250, jitter = true, onRetry } = {}]. *)
Record retry_options (W : Type) := mkRetryOptions {
  opt_tries : option nat;
  opt_baseDelayMs : option Q;
  opt_jitter : option bool;
  opt_onRetry : option (nat → exn → Q → M W unit)
}.
Arguments mkRetryOptions {W}.
Arguments opt_tries {W}.
Arguments opt_baseDelayMs {W}.
Arguments opt_jitter {W}.
Arguments opt_onRetry {W}.


Definition default_tries : nat := 3.
Definition default_baseDelayMs : Q := 250.
Definition default_jitter : bool := true.

(** [Math.round]: the nearest integer, halves upwards. *)
Definition round (q : Q) : Z := Qfloor (q + (1 # 2))%Q.

Section WithRetry.
Context {W : Type} {RT : Runtime W} {A : Type}.

(** [baseDelayMs * Math.pow(2, attempt - 1)] *)
Definition backoff (baseDelayMs : Q) (attempt : nat) : Q :=
  (baseDelayMs * inject_Z (2 ^ Z.of_nat (attempt - 1)))%Q.

(** [jitter ? backoff * (0.8 + Math.random() * 0.4) : backoff] *)
Definition jittered (jitter : bool) (backoff : Q) : M W Q :=
  if jitter then
    let* r := ask rt_random in
    ret (backoff * ((8 # 10) + r * (4 # 10)))%Q
  else ret backoff.

(** [if (typeof onRetry === "function") { try { onRetry(...) } catch {} }] *)
Definition notify (onRetry : option (nat → exn → Q → M W unit))
    (attempt : nat) (err : exn) (delay : Q) : M W unit :=
  match onRetry with
  | Some f => try (f attempt err delay) ;; ret tt
  | None => ret tt
  end.

(** The [if (attempt < tries) { ... }] of the [catch] block: the backoff,
    the [onRetry] callback, whose exception is swallowed, and the sleep. *)
Definition before_retry (tries : nat) (baseDelayMs : Q) (jitter : bool)
    (onRetry : option (nat → exn → Q → M W unit)) (attempt : nat) (err : exn)
    : M W unit :=
  if attempt <? tries then
    let* delay := jittered jitter (backoff baseDelayMs attempt) in
    notify onRetry attempt err delay ;;
    sleep (round delay)
  else ret tt.

(** The body of [for (let attempt = 1; attempt <= tries; attempt++)].
    [remaining] is [tries + 1 - attempt], the number of iterations that
    are left; when none is, the loop is over and [lastErr] is thrown. *)
Fixpoint withRetry_loop (fn : M W A) (tries : nat) (baseDelayMs : Q)
    (jitter : bool) (onRetry : option (nat → exn → Q → M W unit))
    (remaining attempt : nat) (lastErr : exn) : M W A :=
  match remaining with
  | 0 => throw lastErr
  | S remaining' =>
      let* r := try fn in
      match r with
      | inr v => ret v
      | inl err =>
          before_retry tries baseDelayMs jitter onRetry attempt err ;;
          withRetry_loop fn tries baseDelayMs jitter onRetry
            remaining' (S attempt) err
      end
  end.

(** [withRetry(fn, options)] *)
Definition withRetry (fn : M W A) (o : retry_options W) : M W A :=
  let tries := default default_tries (opt_tries o) in
  let baseDelayMs := default default_baseDelayMs (opt_baseDelayMs o) in
  let jitter := default default_jitter (opt_jitter o) in
  withRetry_loop fn tries baseDelayMs jitter (opt_onRetry o) tries 1 Undefined.

(** An operation that counts its invocations in the world: [calls]
    reads the count. *)
Definition counts_calls (calls : W → nat) (fn : M W A) : Prop :=
  ∀ st, calls (world (fn st).2) = S (calls (world st)).

(** Nothing else that [withRetry] does touches the count, and the
    callback returns or throws. *)
Definition keeps_calls (calls : W → nat) (o : retry_options W) : Prop :=
  (∀ w, calls (rt_random w).2 = calls w) ∧
  (∀ f a e d st, opt_onRetry o = Some f →
     (f a e d st).1 ≠ Diverge ∧
     calls (world (f a e d st).2) = calls (world st)).

End WithRetry.

End Retry.

(* ===================================================================== *)
(** * embed.js and pinecone.js *)
(* ===================================================================== *)

Module Store.
Import Url Effects Retry.

Section Store.
Context {W : Type} {RT : Runtime W}.

(** [embedTexts(texts)] *)
Definition embedTexts (texts : list jstring) : M W (list (list Q)) :=
  match texts with
  | [] => ret []
  | _ => call (rt_embed texts)
  end.

(** [ns ?? PINECONE_NAMESPACE]: the left operand unless it is absent. *)
Definition nullish {A} (a b : option A) : option A :=
  match a with Some _ => a | None => b end.

(** [getIndexForNamespace(ns)]. The result names the index that is
    written to: [Some n] is [baseIndex.namespace(n)] and [None] is
    [baseIndex], the default namespace of the store. The empty string is
    falsy. *)
Definition getIndexForNamespace (ns : option addr) : option addr :=
  match nullish ns rt_PINECONE_NAMESPACE with
  | Some [] => None
  | Some n => Some n
  | None => None
  end.

(** [index.upsert(batch)] *)
Definition index_upsert (index : option addr) (batch : list vector) : M W unit :=
  call (rt_upsert index batch) ;;
  emit (EvUpserted index batch).

(** [!v?.id || !Array.isArray(v.values) || v.values.length === 0] *)
Definition invalid_vector (v : vector) : bool :=
  bool_decide (id v = ""%string) || bool_decide (values v = []).

(** The index of the first invalid vector, counting from [i]. *)
Fixpoint first_invalid (i : nat) (vectors : list vector) : option nat :=
  match vectors with
  | [] => None
  | v :: vs => if invalid_vector v then Some i else first_invalid (S i) vs
  end.

(** [for (const batch of batches) { await withRetry(...); total += batch.length; }] *)
Fixpoint upsert_batches (index : option addr) (batches : list (list vector))
    (total : nat) : M W nat :=
  match batches with
  | [] => ret total
  | batch :: batches' =>
      withRetry (index_upsert index batch)
        (mkRetryOptions (Some 3) (Some 300%Q) None None) ;;
      upsert_batches index batches' (total + length batch)
  end.

(** [upsertVectors(vectors, { namespace })]; the result is
    [upsertedCount]. *)
Definition upsertVectors (vectors : list vector) (namespace : option addr) : M W nat :=
  match vectors with
  | [] => ret 0
  | _ =>
      match first_invalid 0 vectors with
      | Some i => throw (Error ("Invalid vector at index " +:+ pretty i))
      | None =>
          let index := getIndexForNamespace namespace in
          let* batches := total (chunk vectors 100) in
          upsert_batches index batches 0
      end
  end.

End Store.
End Store.

(* ===================================================================== *)
(** * scraper.js and routes/scrape.js *)
(* ===================================================================== *)

Module Scraper.
Import Url Utilities Text Effects.

Section Scraper.
Context {W : Type} {RT : Runtime W}.

(** [fetchViaHttp(url)] *)
Definition fetchViaHttp (url : addr) : M W jstring :=
  let* res := call (rt_fetch url) in
  if negb (res_ok res) then
    throw (Error ("HTTP " +:+ pretty (res_status res)))
  else
    let ctype := default [] (res_content_type res) in
    if negb (includes (s "text/html") (toLowerCase ctype)) then
      throw (Error ("Not HTML: " +:+ string_of_list_ascii ctype))
    else ret (cleanText (res_text res)).

(** [fetchViaBrowser(url)]. The session is one call of the runtime;
    [visible] is the trimmed [innerText]. *)
Definition fetchViaBrowser (url : addr) : M W jstring :=
  let* page := call (rt_render url) in
  let visible := trim (innerText page) in
  if truthy visible && (200 <? length (collapse_spaces visible)) then
    ret (trim (collapse_spaces visible))
  else ret (cleanText (content page)).

(** [scrapeText(rawUrl)] *)
Definition scrapeText (rawUrl : addr) : M W jstring :=
  if negb (truthy rawUrl) || negb (isHttpUrl rawUrl) then
    throw (Error "scrapeText: please provide a valid HTTP(S) URL")
  else
    let* url := orTypeError (cleanUrl DEFAULT_STRIP_PARAMS rawUrl) "Invalid URL" in
    let* fast := try (fetchViaHttp url) in
    match fast with
    | inr text =>
        if truthy text && (200 <=? length text) then ret text
        else fetchViaBrowser url
    | inl _ => fetchViaBrowser url
    end.



End Scraper.
End Scraper.

(* ===================================================================== *)
(** * routes/crawl.js *)
(* ===================================================================== *)

Module Crawl.
Import Url Utilities Text Chunker Effects Retry Store Scraper.

Record task := mkTask { url : addr; depth : nat }.

(** The state of the crawl loop: [seen], [q], [crawled], [upserted]. *)
Record crawl_state := mkCrawl {
  seen : gset addr;
  q : list task;
  crawled : nat;
  upserted : nat
}.

(** The settings of a crawl after validation. *)
Record config := mkConfig {
  namespace : option addr;
  pathPrefix : option addr;
  maxDepth : nat;
  maxPages : nat;
  delayMs : Z;
  title : jstring
}.

(** The body of a request to [/ingest-crawl]; [None] is an absent field.
    A numeric field is [Number] of what was sent, when that is finite. *)
Record request := mkRequest {
  req_startUrl : option addr;
  req_namespace : option addr;
  req_pathPrefix : option addr;
  req_maxDepth : option Q;
  req_maxPages : option Q;
  req_delayMs : option Q;
  req_title : option jstring
}.

Inductive crawl_reply :=
  | CrawlBadRequest (status : nat) (message : string)
  | CrawlOk (startUrl : addr) (namespace pathPrefix : option addr)
            (maxDepth maxPages crawled upserted : nat)
  | CrawlServerError (status : nat).

Section Crawl.
Context {W : Type} {RT : Runtime W}.

(** [fetchHtml(url)] *)
Definition fetchHtml (url : addr) : M W jstring :=
  let* res := call (rt_fetch url) in
  if negb (res_ok res) then
    throw (Error ("HTTP " +:+ pretty (res_status res) +:+ " for " +:+ string_of_list_ascii url))
  else
    let type := default [] (res_content_type res) in
    if negb (includes (s "text/html") type) then
      throw (Error ("Not HTML: " +:+ string_of_list_ascii type))
    else ret (res_text res).

(** The callback of [$("a[href]").each] in [discoverLinks]: [out] is the
    set built so far, in insertion order; [None] is an exception. *)
Definition discover_one (baseUrl origin0 : addr) (sameDomain : bool)
    (pathPrefix : option addr) (out : list addr) (raw : addr) : option (list addr) :=
  if negb (truthy raw) then Some out
  else if startsWith (s "#") raw then Some out
  else if startsWith (s "mailto:") raw || startsWith (s "javascript:") raw then Some out
  else
    match rt_resolve raw baseUrl with
    | None => Some out
    | Some u =>
        if negb (bool_decide (protocol u ∈ [s "http:"; s "https:"])) then Some out
        else if sameDomain && negb (bool_decide (origin u = origin0)) then Some out
        else if match pathPrefix with
                | Some (_ :: _ as pre) => negb (startsWith pre (pathname u))
                | _ => false
                end then Some out
        else
          match cleanUrl DEFAULT_STRIP_PARAMS (toString u) with
          | None => None
          | Some l => Some (if bool_decide (l ∈ out) then out else out ++ [l])
          end
    end.

Fixpoint discover_each (baseUrl origin0 : addr) (sameDomain : bool)
    (pathPrefix : option addr) (out : list addr) (raws : list addr)
    : option (list addr) :=
  match raws with
  | [] => Some out
  | raw :: raws' =>
      match discover_one baseUrl origin0 sameDomain pathPrefix out raw with
      | None => None
      | Some out' => discover_each baseUrl origin0 sameDomain pathPrefix out' raws'
      end
  end.

(** [discoverLinks(html, baseUrl, { sameDomain, pathPrefix })]; [None] is
    an exception. *)
Definition discoverLinks (html : jstring) (baseUrl : addr) (sameDomain : bool)
    (pathPrefix : option addr) : option (list addr) :=
  match URL_new baseUrl with
  | None => None
  | Some base =>
      discover_each baseUrl (origin base) sameDomain pathPrefix [] (rt_hrefs html)
  end.

(** The title that goes with the vectors of a page. *)
Definition page_title (title html : jstring) : jstring :=
  if truthy title then title
  else
    let rawTitle := trim (rt_title html) in
    if truthy rawTitle then rawTitle else title.

(** [embeddings.map((vec, i) => ({ id, values, metadata }))], from index
    [i] on; [None] is the [TypeError] of [chunks[i].slice] on a missing
    chunk. *)
Fixpoint build_vectors (now crawled : nat) (url : addr) (pageTitle : jstring)
    (chunks : list jstring) (i : nat) (embeddings : list (list Q))
    : option (list vector) :=
  match embeddings with
  | [] => Some []
  | vec :: rest =>
      match chunks !! i with
      | None => None
      | Some c =>
          let v := mkVector
                     (pretty now +:+ "-" +:+ pretty crawled +:+ "-" +:+ pretty i)
                     vec
                     (Some (mkMetadata url pageTitle i (slice c 0 800))) in
          (v ::.) <$> build_vectors now crawled url pageTitle chunks (S i) rest
      end
  end.

(** Chunk, embed, upsert: the body of the last [try] of the loop. The
    result is what is added to [upserted]. *)
Definition ingest_page (cfg : config) (crawled : nat) (url : addr)
    (pageTitle text : jstring) : M W nat :=
  let* chunks := total (chunkText text 1200 150) in
  match chunks with
  | [] => ret 0
  | _ =>
      let* embeddings := embedTexts chunks in
      let* now := ask rt_now in
      let* vectors :=
        orTypeError (build_vectors now crawled url pageTitle chunks 0 embeddings)
          "Cannot read properties of undefined (reading 'slice')" in
      upsertVectors vectors (namespace cfg)
  end.

(** What follows [seen.add(url)] in one turn of the loop; [cs] already
    has the task removed from [q] and [url] added to [seen]. A [continue]
    is a return with the state as it is then. *)
Definition visit (cfg : config) (cs : crawl_state) (url : addr) (depth : nat)
    : M W crawl_state :=
  let* fetched := try (fetchHtml url) in
  match fetched with
  | inl _ => emit (EvFetched url false) ;; ret cs
  | inr html =>
      emit (EvFetched url true) ;;
      let pageTitle := page_title (title cfg) html in
      let cs :=
        match discoverLinks html url true (pathPrefix cfg) with
        | Some links =>
            mkCrawl (seen cs)
              (q cs ++ map (λ l, mkTask l (depth + 1))
                           (filter (λ l, l ∉ seen cs) links))
              (crawled cs) (upserted cs)
        | None => cs
        end in
      let* scraped := try (scrapeText url) in
      match scraped with
      | inl _ => emit (EvScraped url false) ;; ret cs
      | inr text =>
          emit (EvScraped url true) ;;
          let* r := try (ingest_page cfg (crawled cs) url pageTitle text) in
          let cs :=
            match r with
            | inr upsertedCount =>
                mkCrawl (seen cs) (q cs) (crawled cs) (upserted cs + upsertedCount)
            | inl _ => cs
            end in
          let cs := mkCrawl (seen cs) (q cs) (crawled cs + 1) (upserted cs) in
          (if bool_decide (delayMs cfg ≠ 0%Z) then sleep (delayMs cfg) else ret tt) ;;
          ret cs
      end
  end.

(** One turn of the loop, entered with [q] non-empty. *)
Definition crawl_turn (cfg : config) (cs : crawl_state) : M W crawl_state :=
  match q cs with
  | [] => ret cs
  | mkTask url depth :: q' =>
      let cs := mkCrawl (seen cs) q' (crawled cs) (upserted cs) in
      if bool_decide (url ∈ seen cs) || (maxDepth cfg <? depth) then ret cs
      else
        let cs := mkCrawl ({[url]} ∪ seen cs) (q cs) (crawled cs) (upserted cs) in
        emit (EvVisit url depth) ;;
        visit cfg cs url depth
  end.

(** [while (q.length && crawled < maxPages) { ... }]; [fuel] bounds the
    number of times the condition is evaluated. *)
Fixpoint crawl_loop (fuel : nat) (cfg : config) (cs : crawl_state) : M W crawl_state :=
  match fuel with
  | 0 => diverge
  | S fuel' =>
      if negb (bool_decide (q cs = [])) && (crawled cs <? maxPages cfg) then
        let* cs' := crawl_turn cfg cs in
        crawl_loop fuel' cfg cs'
      else ret cs
  end.

(** The crawl state at the start: [seen] empty, the seed in [q]. *)
Definition initial (seed : addr) : crawl_state := mkCrawl ∅ [mkTask seed 0] 0 0.

(** The settings of a request: defaults, [pathPrefix] made to start with
    a slash, limits clamped. *)
Definition configure (req : request) : config :=
  mkConfig
    (req_namespace req)
    (match default (s "/docs") (req_pathPrefix req) with
     | [] => None
     | p => Some (if startsWith (s "/") p then p else s "/" ++ p)
     end)
    (Z.to_nat (clampInt (Some (default 1%Q (req_maxDepth req))) 0 6 1))
    (Z.to_nat (clampInt (Some (default 50%Q (req_maxPages req))) 1 1000 50))
    (clampInt (Some (default 200%Q (req_delayMs req))) 0 5000 200)
    (default [] (req_title req)).

(** The handler of [/ingest-crawl]. *)
Definition ingest_crawl (fuel : nat) (req : request) : M W crawl_reply :=
  let* r :=
    try
      match req_startUrl req with
      | None | Some [] =>
          ret (CrawlBadRequest 400 "Please provide a valid HTTP(S) 'startUrl'.")
      | Some startUrl =>
          if negb (isHttpUrl startUrl) then
            ret (CrawlBadRequest 400 "Please provide a valid HTTP(S) 'startUrl'.")
          else
            let cfg := configure req in
            let* seed := orTypeError (cleanUrl DEFAULT_STRIP_PARAMS startUrl) "Invalid URL" in
            let* cs := crawl_loop fuel cfg (initial seed) in
            ret (CrawlOk startUrl
                   (match namespace cfg with Some [] => None | n => n end)
                   (pathPrefix cfg)
                   (maxDepth cfg) (maxPages cfg) (crawled cs) (upserted cs))
      end in
  match r with
  | inr reply => ret reply
  | inl _ => ret (CrawlServerError 500)
  end.

End Crawl.









End Crawl.

(* ===================================================================== *)
(** * Simulated worlds, for running the programs on examples *)
(* ===================================================================== *)

Module Worlds.
Import Url Effects.

(** A simulated world. Pages are fixed by their address; the state is the
    number of [index.upsert] calls made so far, and [sim_upsert_fails]
    tells which of them are rejected. *)
Record sim := mkSim {
  sim_fetch : addr → exn + response;
  sim_render : addr → exn + rendered;
  sim_hrefs : jstring → list addr;
  sim_embed : list jstring → exn + list (list Q);
  sim_upsert_fails : nat → bool;
  sim_random : Q;
  sim_namespace : option addr
}.

Definition sim_runtime (c : sim) : Runtime nat := {|
  rt_fetch url w := (sim_fetch c url, w);
  rt_render url w := (sim_render c url, w);
  rt_hrefs := sim_hrefs c;
  rt_title _ := [];
  rt_resolve raw _ := URL_new raw;
  rt_embed texts w := (sim_embed c texts, w);
  rt_upsert _ _ w :=
    (if sim_upsert_fails c w then inl (Error "store unavailable") else inr tt, S w);
  rt_random w := (sim_random c, w);
  rt_now w := (0, w);
  rt_PINECONE_NAMESPACE := sim_namespace c
|}.

(** A world without pages, whose store accepts every batch. *)
Definition offline : sim :=
  mkSim (λ _, inl (Error "fetch failed")) (λ _, inl (Error "navigation failed"))
        (λ _, []) (λ texts, inr (map (λ _, [1%Q]) texts)) (λ _, false)
        (1 # 2) None.


(** A world in which every address serves the same short page without
    links, and whose deployment sets [PINECONE_NAMESPACE] to [ns]. *)
Definition hello : jstring := lit "<html><body><p>Hello docs</p></body></html>".

Definition one_page (ns : option addr) : sim :=
  mkSim (λ _, inr (mkResponse true 200 (Some (s "text/html")) hello))
        (λ _, inr (mkRendered (lit "Hello docs") hello))
        (λ _, []) (sim_embed offline) (λ _, false) (1 # 2) ns.



(** A request that names the seed and nothing else. *)
Definition bare_request (startUrl : addr) : Crawl.request :=
  Crawl.mkRequest (Some startUrl) None None None None None None.

(** The state in which a run starts. *)
Definition start : St nat := mkSt 0 [].

(** An operation that throws on every invocation, and one that throws
    on its first two invocations and returns [v] from then on. Both count
    their invocations in the state of the world. *)
Definition failing_op : M nat jstring :=
  λ st, (Throw (Error "boom"), mkSt (S (world st)) (log st)).

Definition third_time_lucky (v : jstring) : M nat jstring :=
  λ st, (if world st <? 2 then Throw (Error "boom") else Ok v,
         mkSt (S (world st)) (log st)).

(** The options [{ tries: 3 }]. *)
Definition three_tries : Retry.retry_options nat :=
  Retry.mkRetryOptions (Some 3) None None None.

(** [n] valid vectors. *)
Definition sample_vectors (n : nat) : list vector :=
  map (λ i, mkVector (pretty i) [1%Q] None) (seq 0 n).

End Worlds.

(* ===================================================================== *)
(** * JavaScript arrays of strings *)
(* ===================================================================== *)

Module Arrays.


End Arrays.

(* ===================================================================== *)
(** * utilities.js: the number of results *)
(* ===================================================================== *)

Module Validation.
Import Effects Retry.

(** The options of [normalizeTopK]; a field that is [None] is absent and
    takes its default in the destructuring
    [{ min = 1, max = 50, fallback = 5 } = {}]. *)
Record topK_options := mkTopKOptions {
  opt_min : option Z;
  opt_max : option Z;
  opt_fallback : option Z
}.

(** What the routes pass, [normalizeTopK(topK, 5)]: the number [5] has
    none of the three fields. *)
Definition no_topK_options : topK_options := mkTopKOptions None None None.

(** [normalizeTopK(value, options)]; [value] is [Number(value)] when that
    is finite. *)
Definition normalizeTopK (value : option Q) (o : topK_options) : Z :=
  clampInt value (default 1%Z (opt_min o)) (default 50%Z (opt_max o))
           (default 5%Z (opt_fallback o)).

End Validation.

(* ===================================================================== *)
(** * Counting what was written *)
(* ===================================================================== *)

Module Tally.
Import Effects.

(** The number of vectors that the store accepted, over a log. *)
Definition written (l : list event) : nat :=
  length (concat (commits l).*2).


End Tally.

(* ===================================================================== *)
(** * pinecone.js: queries, and routes/query.js *)
(* ===================================================================== *)

Module Query.
Import Url Text Effects Retry Store Validation.

(** A match of a vector query, as the routes read it: [m.score] and the
    fields [url], [title] and [text] of [m.metadata]. [None] is a field
    that is absent; without [metadata] all three are. *)
Record hit := mkHit {
  hit_score : option Q;
  hit_url : option jstring;
  hit_title : option jstring;
  hit_text : option jstring
}.

(** The services of the query side. *)
Class Services (W : Type) := {
  (** [index.query({ vector, topK, includeMetadata: true,
      includeValues: false, filter })] on the index of a namespace; the
      result is [res?.matches]. No caller passes a [filter]. *)
  rt_query : option addr → list Q → Z → W → (exn + option (list hit)) * W;
  (** [openai.chat.completions.create] with the two messages [system]
      and [user]; the result is
      [completion.choices?.[0]?.message?.content]. *)
  rt_complete : jstring → jstring → W → (exn + option jstring) * W
}.

(** The body of a request to [/query] or to [/chat]. [sr_question] is
    [None] when the request holds no string under [question]; [sr_topK]
    is [Number(topK)] when that is finite. *)
Record search_request := mkSearchRequest {
  sr_question : option jstring;
  sr_topK : option Q;
  sr_namespace : option addr
}.

(** An entry of [results] in the reply of [/query]. *)
Record query_result := mkQueryResult {
  qr_score : option Q;
  qr_url : option jstring;
  qr_title : option jstring;
  qr_snippet : jstring
}.

Inductive query_reply :=
  | QueryBadRequest (status : nat) (message : string)
  | QueryOk (question : jstring) (namespace : option addr) (topK : Z)
            (count : nat) (results : list query_result)
  | QueryServerError (status : nat) (message : string).

(** [(matches || []).map((m) => ({ score, url, title,
      snippet: safeString(m?.metadata?.text, 800) }))].
    The module of the route neither imports nor declares [safeString]:
    the callback throws a [ReferenceError] the first time it is called,
    and [map] calls it once for every match. [None] is that exception. *)
Definition query_results (matches : list hit) : option (list query_result) :=
  match matches with
  | [] => Some []
  | _ :: _ => None
  end.

Section Query.
Context {W : Type} {RT : Runtime W} {SV : Services W}.

(** [queryVector(vector, topK, { namespace })]; [vector] is [None] when
    it is not an array, [topK] when it is [undefined]. *)
Definition queryVector (vector : option (list Q)) (topK : option Q)
    (namespace : option addr) : M W (list hit) :=
  match vector with
  | None | Some [] => throw (Error "queryVector: vector must be a number array")
  | Some vector =>
      let k := clampInt (Some (default 8%Q topK)) 1 200 8 in
      let index := getIndexForNamespace namespace in
      let* res :=
        withRetry (call (rt_query index vector k))
          (mkRetryOptions (Some 3) (Some 300%Q) None None) in
      ret (default [] res)
  end.

(** The handler of [/query]. The timing field [took_ms] is left out. *)
Definition query_route (req : search_request) : M W query_reply :=
  let* r :=
    try
      match sr_question req with
      | None => ret (QueryBadRequest 400 "Please include a non-empty 'question' string.")
      | Some question =>
          if negb (truthy question) || negb (truthy (trim question)) then
            ret (QueryBadRequest 400 "Please include a non-empty 'question' string.")
          else
            let k := normalizeTopK (sr_topK req) no_topK_options in
            let* embeddings := embedTexts [question] in
            let qVec := head embeddings in
            let* matches := queryVector qVec (Some (inject_Z k)) (sr_namespace req) in
            match query_results matches with
            | None => throw (Error "safeString is not defined")
            | Some results =>
                ret (QueryOk (trim question) (sr_namespace req) k
                       (length results) results)
            end
      end in
  match r with
  | inr reply => ret reply
  | inl _ => ret (QueryServerError 500 "Query failed. Please try again.")
  end.

End Query.
End Query.

(* ===================================================================== *)
(** * routes/chat.js *)
(* ===================================================================== *)

Module Chat.
Import Url Arrays Effects Retry Store Validation Query.

(** [trim(str, max)] of the chat route; the ellipsis is U+2026. *)
Definition trim (str : jstring) (max : nat) : jstring :=
  if length str <=? max then str else slice str 0 max ++ [8230%N].












(** [err?.message] *)
Definition message (err : exn) : option string :=
  match err with
  | Undefined => None
  | Error msg | TypeError msg => Some msg
  end.


Section Chat.
Context {W : Type} {RT : Runtime W} {SV : Services W}.


End Chat.
End Chat.

(* ===================================================================== *)
(** * routes/ingest.js *)
(* ===================================================================== *)

Module Ingest.
Import Url Utilities Chunker Effects Retry Store Scraper.

(** [safeSlice(str, max)] with the suffix as the source file of
    [utilities.js] spells it, the three code units U+00E2 U+20AC
    U+00A6. *)
Definition safeSlice (str : jstring) (max : nat) : jstring :=
  if max <? length str then slice str 0 max ++ [226%N; 8364%N; 166%N] else str.

(** The body of a request to [/ingest-url-chunks]; [None] is an absent
    field, or one that is not a string. *)
Record ingest_request := mkIngestRequest {
  ir_url : option addr;
  ir_title : option jstring;
  ir_namespace : option addr
}.

Inductive ingest_reply :=
  | IngestBadRequest (status : nat) (message : string)
  | IngestUnprocessable (status : nat) (code : string)
  | IngestOk (url : addr) (namespace : option addr) (chunks upserted : nat)
  | IngestServerError (status : nat).

(** [embeddings.map((vec, i) => ({ id, values, metadata }))] of
    [/ingest-url-chunks]. [safeSlice(chunks[i], 800)] is the empty
    string where [chunks[i]] is missing. *)
Definition chunk_vectors (now : nat) (url : addr) (title : jstring)
    (chunks : list jstring) (embeddings : list (list Q)) : list vector :=
  imap (λ i vec,
          mkVector (pretty now +:+ "-" +:+ pretty i) vec
            (Some (mkMetadata url (safeSlice title 300) i
                     (safeSlice (default [] (chunks !! i)) 800))))
       embeddings.

Section Ingest.
Context {W : Type} {RT : Runtime W}.

(** The handler of [/ingest-url-chunks]. The timing field [took_ms] is
    left out. *)
Definition ingest_url_chunks (req : ingest_request) : M W ingest_reply :=
  let* r :=
    try
      match ir_url req with
      | None | Some [] =>
          ret (IngestBadRequest 400 "Please provide a valid HTTP(S) 'url'.")
      | Some url =>
          if negb (isHttpUrl url) then
            ret (IngestBadRequest 400 "Please provide a valid HTTP(S) 'url'.")
          else
            let* clean := orTypeError (cleanUrl DEFAULT_STRIP_PARAMS url) "Invalid URL" in
            let* text := scrapeText clean in
            if negb (truthy text) || negb (truthy (trim text)) then
              ret (IngestUnprocessable 422 "no_content")
            else
              let* chunks := total (chunkText text 1200 150) in
              match chunks with
              | [] => ret (IngestUnprocessable 422 "no_chunks")
              | _ :: _ =>
                  let* embeddings := embedTexts chunks in
                  let* now := ask rt_now in
                  let vectors :=
                    chunk_vectors now clean (default [] (ir_title req))
                                  chunks embeddings in
                  let* upsertedCount := upsertVectors vectors (ir_namespace req) in
                  ret (IngestOk clean (ir_namespace req) (length chunks) upsertedCount)
              end
      end in
  match r with
  | inr reply => ret reply
  | inl _ => ret (IngestServerError 500)
  end.

End Ingest.
End Ingest.

(* ===================================================================== *)
(** * web: App.jsx *)
(* ===================================================================== *)

Module Web.
Import Url Arrays Utilities Crawl.







End Web.

(* ===================================================================== *)
(** * Simulated query services *)
(* ===================================================================== *)

Module Desk.
Import Effects Query.

(** A store that answers every query with [hits] and a model that
    answers every prompt with [content]. *)
Definition sim_services (hits : option (list hit)) (content : option jstring)
    : Services nat := {|
  rt_query _ _ _ w := (inr hits, w);
  rt_complete _ _ w := (inr content, w)
|}.

Definition sample_hit : hit :=
  mkHit (Some (9 # 10)) (Some (lit "https://example.com/docs"))
        (Some (lit "Docs")) (Some (lit "Hello docs")).

(** A request that holds a question and nothing else. *)
Definition asking (question : string) : search_request :=
  mkSearchRequest (Some (lit question)) None None.

End Desk.

(* ===================================================================== *)
(** * Text without tags *)
(* ===================================================================== *)

Module Markup.
Import Text.

(** No tag is left in [x]: the pattern [<[^>]+>] of [cleanText] matches
    nowhere. *)
Fixpoint tagless (x : jstring) : Prop :=
  match x with
  | [] => True
  | c :: x' => (c = 60%N → tag_body x' = None) ∧ tagless x'
  end.

End Markup.

(* ===================================================================== *)
(** * Lists *)
(* ===================================================================== *)

Section ListFacts.
Context {A : Type}.



End ListFacts.

(* ===================================================================== *)
(** * Properties of the chunker *)
(* ===================================================================== *)

Section ChunkerFacts.
Import Chunker.

Lemma trimStart_suffix (x : jstring) :
  x = take (length x - length (trimStart x)) x ++ trimStart x.
Proof.
  induction x as [|c x IH]; simpl; [done|].
  destruct (is_space c); simpl.
  - assert (length (trimStart x) ≤ length x) as Hle.
    { rewrite IH at 2. rewrite length_app. lia. }
    replace (S (length x) - length (trimStart x))
      with (S (length x - length (trimStart x))) by lia.
    simpl. by rewrite <- IH.
  - by rewrite Nat.sub_diag.
Qed.

Lemma trimStart_length (x : jstring) : length (trimStart x) ≤ length x.
Proof. rewrite (trimStart_suffix x) at 2. rewrite length_app. lia. Qed.

Lemma trimStart_drop (x : jstring) :
  trimStart x = drop (length x - length (trimStart x)) x.
Proof.
  apply (app_inv_head (take (length x - length (trimStart x)) x)).
  rewrite take_drop. symmetry. apply trimStart_suffix.
Qed.

Lemma trimEnd_prefix (x : jstring) : trimEnd x = take (length (trimEnd x)) x.
Proof.
  unfold trimEnd.
  rewrite <- (rev_involutive x) at 3.
  rewrite (trimStart_suffix (rev x)) at 3. rewrite rev_app_distr.
  rewrite take_app_length'; [done|]. by rewrite !length_rev.
Qed.

Lemma trimEnd_length (x : jstring) : length (trimEnd x) ≤ length x.
Proof. unfold trimEnd. rewrite length_rev, <- (length_rev x). apply trimStart_length. Qed.

(** [trim] cuts a slice out of its argument. *)
Lemma trim_slice (x : jstring) :
  let lead := length x - length (trimStart x) in
  trim x = slice x lead (lead + length (trim x)).
Proof.
  intros lead. unfold slice, trim.
  replace (lead + length (trimEnd (trimStart x)) - lead)
    with (length (trimEnd (trimStart x))) by lia.
  subst lead. rewrite <- trimStart_drop. apply trimEnd_prefix.
Qed.

Lemma truthy_nonempty {A} (x : list A) : truthy x = bool_decide (x ≠ []).
Proof. by destruct x. Qed.

Lemma slice_window (text : jstring) (maxChars i : nat) :
  slice text i (i + maxChars) = window text maxChars i.
Proof. unfold slice, window. f_equal. lia. Qed.

Lemma chunkText_loop_spec (text : jstring) (maxChars overlap : nat) :
  overlap < maxChars →
  ∀ fuel n i chunks,
    length text - i < fuel →
    length text - i ≤ n →
    chunkText_loop fuel text maxChars overlap i chunks =
      Some (chunks ++
            filter (λ p, p ≠ [])
              (map (λ i, trim (window text maxChars i))
                   (offsets_from n (length text) (maxChars - overlap) i))).
Proof.
  intros Hlt fuel. induction fuel as [|fuel IH]; intros n i chunks Hf Hn; [lia|].
  simpl. destruct (i <? length text) eqn:Hi.
  - apply Nat.ltb_lt in Hi. destruct n as [|n]; [lia|]. simpl.
    assert ((i <? length text) = true) as -> by by apply Nat.ltb_lt.
    rewrite (IH n); [|lia|lia]. rewrite slice_window. simpl.
    rewrite filter_cons, truthy_nonempty.
    case_bool_decide as Hne; case_decide; try done.
    by rewrite <- app_assoc.
  - apply Nat.ltb_ge in Hi. f_equal.
    destruct n; simpl; [by rewrite app_nil_r|].
    assert ((i <? length text) = false) as -> by by apply Nat.ltb_ge.
    by rewrite app_nil_r.
Qed.

(** The chunker returns for every text when [overlap < maxChars]. *)
Lemma chunkText_total (text : jstring) (maxChars overlap : nat) :
  overlap < maxChars →
  chunkText text maxChars overlap = Some (spec_chunks text maxChars overlap).
Proof.
  intros Hlt. unfold chunkText, spec_chunks, offsets.
  rewrite (chunkText_loop_spec text maxChars overlap Hlt _ (length text)); [done|lia|lia].
Qed.

Lemma chunkSpans_loop_slices (text : jstring) (maxChars overlap : nat) :
  ∀ fuel i spans,
    chunkText_loop fuel text maxChars overlap i
        (map (λ ab, slice text ab.1 ab.2) spans) =
    map (λ ab, slice text ab.1 ab.2) <$>
      chunkSpans_loop fuel text maxChars overlap i spans.
Proof.
  induction fuel as [|fuel IH]; intros i spans; [done|]. simpl.
  destruct (i <? length text) eqn:Hi; [|done].
  rewrite <- IH. f_equal.
  destruct (truthy _) eqn:Ht; [|done].
  rewrite map_app. simpl. do 2 f_equal.
  set (w := slice text i (i + maxChars)).
  rewrite (trim_slice w) at 1. subst w. unfold slice.
  set (lead := length _ - length (trimStart _)).
  set (n := length (trim _)).
  replace (lead + n - lead) with n by lia.
  replace (i + lead + n - (i + lead)) with n by lia.
  replace (i + maxChars - i) with maxChars by lia.
  rewrite <- drop_drop. rewrite skipn_firstn_comm.
  rewrite take_take. f_equal.
  assert (n ≤ maxChars - lead); [|lia].
  subst n. unfold trim.
  etrans; [apply trimEnd_length|].
  rewrite trimStart_drop. fold lead.
  rewrite length_drop, length_take. lia.
Qed.

(** The spans recorded by [chunkSpans] are where the chunks of
    [chunkText] sit in the source text. *)
Lemma chunkSpans_slices (text : jstring) (maxChars overlap : nat) :
  chunkText text maxChars overlap =
  map (λ ab, slice text ab.1 ab.2) <$> chunkSpans text maxChars overlap.
Proof. apply (chunkSpans_loop_slices text maxChars overlap _ 0 []). Qed.

(** Two consecutive windows: the last [overlap] code units of the first
    are the first [overlap] code units of the second. *)
Lemma window_overlap (text : jstring) (maxChars overlap i : nat) :
  overlap < maxChars →
  i + maxChars ≤ length text →
  drop (maxChars - overlap) (window text maxChars i) =
    take overlap (window text maxChars (i + (maxChars - overlap))) ∧
  length (drop (maxChars - overlap) (window text maxChars i)) = overlap.
Proof.
  intros Hlt Hlen. unfold window. split.
  - rewrite skipn_firstn_comm, drop_drop, take_take.
    f_equal; lia.
  - rewrite length_drop, length_take, length_drop. lia.
Qed.

(** C5, as amended. For every text and every [overlap < maxChars] the
    chunker returns, and what it returns are, in order, the trimmed
    windows of size [maxChars] at the offsets [0, step, 2*step, ...] with
    [step = maxChars - overlap], the empty ones left out. Two consecutive
    windows, before trimming, share exactly [overlap] code units of the
    source whenever the first window is a full one. *)
Theorem chunkText_windows (text : jstring) (maxChars overlap : nat) :
  overlap < maxChars →
  chunkText text maxChars overlap = Some (spec_chunks text maxChars overlap) ∧
  ∀ i, i + maxChars ≤ length text →
       drop (maxChars - overlap) (window text maxChars i) =
         take overlap (window text maxChars (i + (maxChars - overlap))) ∧
       length (drop (maxChars - overlap) (window text maxChars i)) = overlap.
Proof.
  intros Hlt. split; [by apply chunkText_total|].
  intros i Hi. by apply window_overlap.
Qed.

Lemma chunkText_windows_witness :
  1 < 3 ∧
  chunkText (lit "ab cd") 3 1 = Some [lit "ab"; lit "cd"; lit "d"] ∧
  drop 2 (window (lit "ab cd") 3 0) = take 1 (window (lit "ab cd") 3 2).
Proof.
  split; [lia|].
  destruct (chunkText_windows (lit "ab cd") 3 1 ltac:(lia)) as [Hc Hw].
  split; [exact Hc|].
  exact (proj1 (Hw 0 ltac:(vm_compute; lia))).
Defined.

(** C5, as stated, fails: in ["ab cd"] with [maxChars = 3] and
    [overlap = 1] the first two chunks are ["ab"] (positions 0-1) and
    ["cd"] (positions 3-4), which share no position, and they are not the
    last pair. *)
Lemma chunkText_overlap_counterexample :
  chunkText (lit "ab cd") 3 1 = Some [lit "ab"; lit "cd"; lit "d"] ∧
  chunkSpans (lit "ab cd") 3 1 = Some [(0, 2); (3, 5); (4, 5)] ∧
  ¬ consecutive_overlap_exact (lit "ab cd") 3 1.
Proof.
  split; [reflexivity|]. split; [reflexivity|].
  intros H.
  specialize (H [(0, 2); (3, 5); (4, 5)] 0 0 2 3 5 eq_refl eq_refl eq_refl).
  simpl in H. lia.
Qed.

End ChunkerFacts.

(* ===================================================================== *)
(** * Properties of the retry wrapper *)
(* ===================================================================== *)

Section RetryFacts.
Import Effects Retry.
Context {W : Type} {RT : Runtime W} {A : Type}.

(** The operation [fn] counts its invocations in the world, where
    [calls] reads the count. *)
Variable calls : W → nat.
Variable fn : M W A.
Variable o : retry_options W.

Lemma before_retry_keeps tries baseDelayMs jitter attempt err st :
  keeps_calls calls o →
  ∃ st', before_retry tries baseDelayMs jitter (opt_onRetry o) attempt err st
           = (Ok tt, st') ∧
         calls (world st') = calls (world st).
Proof.
  intros [Hrand Hcb]. unfold before_retry.
  destruct (attempt <? tries); [|by eexists].
  unfold jittered, notify, bind, ask, ret, sleep, emit, try.
  destruct jitter; simpl.
  - specialize (Hrand (world st)).
    destruct (rt_random (world st)) as [r w'] eqn:Hr. simpl in *.
    destruct (opt_onRetry o) as [f|] eqn:Hf; simpl.
    + destruct (Hcb f attempt err
                  (backoff baseDelayMs attempt * ((8 # 10) + r * (4 # 10)))%Q
                  (mkSt w' (log st)) eq_refl) as [Hnd Hc].
      destruct (f _ _ _ _) as [[[]|e|] st1]; simpl in *; try done;
        eexists; (split; [reflexivity|]); simpl; congruence.
    + eexists; split; [reflexivity|]. done.
  - destruct (opt_onRetry o) as [f|] eqn:Hf; simpl.
    + destruct (Hcb f attempt err (backoff baseDelayMs attempt) st eq_refl)
        as [Hnd Hc].
      destruct (f _ _ _ _) as [[[]|e|] st1]; simpl in *; try done;
        eexists; (split; [reflexivity|]); simpl; congruence.
    + eexists; split; [reflexivity|]. done.
Qed.

(** One turn of the loop on an invocation that throws. *)
Lemma withRetry_loop_fail tries baseDelayMs jitter remaining attempt lastErr st e :
  keeps_calls calls o →
  (fn st).1 = Throw e →
  ∃ st', calls (world st') = calls (world (fn st).2) ∧
    (tries ≤ attempt → st' = (fn st).2) ∧
    withRetry_loop fn tries baseDelayMs jitter (opt_onRetry o)
      (S remaining) attempt lastErr st =
    withRetry_loop fn tries baseDelayMs jitter (opt_onRetry o)
      remaining (S attempt) e st'.
Proof.
  intros Hk Hf. simpl. unfold bind at 1, try.
  destruct (fn st) as [r st1]. simpl in Hf. subst r. simpl.
  destruct (before_retry_keeps tries baseDelayMs jitter attempt e st1 Hk)
    as (st' & Hb & Hc).
  exists st'. split; [done|]. split.
  - intros Hle. unfold before_retry in Hb.
    apply Nat.ltb_ge in Hle. rewrite Hle in Hb. by inversion Hb.
  - unfold bind. by rewrite Hb.
Qed.

(** One turn of the loop on an invocation that returns. *)
Lemma withRetry_loop_ok tries baseDelayMs jitter remaining attempt lastErr st v :
  (fn st).1 = Ok v →
  withRetry_loop fn tries baseDelayMs jitter (opt_onRetry o)
    (S remaining) attempt lastErr st = (Ok v, (fn st).2).
Proof.
  intros Hf. simpl. unfold bind, try.
  destruct (fn st) as [r st1]. simpl in Hf. by subst r.
Qed.

(** C6. With [tries = 3], an operation that fails on every invocation is
    invoked exactly three times, and the error of the third invocation is
    what [withRetry] throws; an operation that fails on its first two
    invocations and returns [v] on the third makes [withRetry] return
    [v]. The operation counts its invocations in [calls]. *)
Theorem withRetry_three_tries :
  opt_tries o = Some 3 →
  counts_calls calls fn →
  keeps_calls calls o →
  (∀ st, (∀ st', ∃ e, (fn st').1 = Throw e) →
     ∃ e st_last,
       withRetry fn o st = (Throw e, (fn st_last).2) ∧
       (fn st_last).1 = Throw e ∧
       calls (world st_last) = calls (world st) + 2 ∧
       calls (world (fn st_last).2) = calls (world st) + 3) ∧
  (∀ st v,
     (∀ st', calls (world st') < calls (world st) + 2 → ∃ e, (fn st').1 = Throw e) →
     (∀ st', calls (world st') = calls (world st) + 2 → (fn st').1 = Ok v) →
     ∃ st_last,
       withRetry fn o st = (Ok v, (fn st_last).2) ∧
       calls (world (fn st_last).2) = calls (world st) + 3).
Proof.
  intros Ht Hcount Hkeep. unfold withRetry. rewrite Ht. simpl default.
  set (b := default default_baseDelayMs (opt_baseDelayMs o)).
  set (j := default default_jitter (opt_jitter o)).
  split.
  - intros st Hfail.
    destruct (Hfail st) as [e1 H1].
    destruct (withRetry_loop_fail 3 b j 2 1 Undefined st e1 Hkeep H1)
      as (st1 & Hc1 & _ & ->).
    destruct (Hfail st1) as [e2 H2].
    destruct (withRetry_loop_fail 3 b j 1 2 e1 st1 e2 Hkeep H2)
      as (st2 & Hc2 & _ & ->).
    destruct (Hfail st2) as [e3 H3].
    destruct (withRetry_loop_fail 3 b j 0 3 e2 st2 e3 Hkeep H3)
      as (st3 & Hc3 & Hst3 & ->).
    exists e3, st2. simpl.
    pose proof (Hcount st) as C1. pose proof (Hcount st1) as C2.
    pose proof (Hcount st2) as C3.
    split; [|split; [done|split; lia]].
    unfold throw. by rewrite Hst3.
  - intros st v Hfail Hok.
    destruct (Hfail st ltac:(lia)) as [e1 H1].
    destruct (withRetry_loop_fail 3 b j 2 1 Undefined st e1 Hkeep H1)
      as (st1 & Hc1 & _ & ->).
    pose proof (Hcount st) as C1.
    destruct (Hfail st1 ltac:(lia)) as [e2 H2].
    destruct (withRetry_loop_fail 3 b j 1 2 e1 st1 e2 Hkeep H2)
      as (st2 & Hc2 & _ & ->).
    pose proof (Hcount st1) as C2. pose proof (Hcount st2) as C3.
    exists st2. split; [|lia].
    apply withRetry_loop_ok. apply Hok. lia.
Qed.

End RetryFacts.

Section RetryDefaults.
Import Effects Retry.
Context {W : Type} {RT : Runtime W} {A : Type}.


End RetryDefaults.

Section RetryExamples.
Import Effects Retry Worlds.


Lemma withRetry_three_tries_witness :
  (∃ e st_last,
     withRetry (RT := sim_runtime offline) failing_op three_tries start =
       (Throw e, (failing_op st_last).2) ∧
     (failing_op st_last).1 = Throw e ∧
     world st_last = world start + 2 ∧
     world (failing_op st_last).2 = world start + 3) ∧
  (∃ st_last,
     withRetry (RT := sim_runtime offline) (third_time_lucky (lit "ok"))
       three_tries start = (Ok (lit "ok"), (third_time_lucky (lit "ok") st_last).2) ∧
     world (third_time_lucky (lit "ok") st_last).2 = world start + 3).
Proof.
  split.
  - refine (proj1 (withRetry_three_tries (RT := sim_runtime offline)
                     (λ w, w) failing_op three_tries eq_refl _ _) start _).
    + intros st. reflexivity.
    + split; [reflexivity|]. intros f a e d st Hf. discriminate Hf.
    + intros st'. by exists (Error "boom").
  - refine (proj2 (withRetry_three_tries (RT := sim_runtime offline)
                     (λ w, w) (third_time_lucky (lit "ok")) three_tries eq_refl _ _)
              start (lit "ok") _ _).
    + intros st. reflexivity.
    + split; [reflexivity|]. intros f a e d st Hf. discriminate Hf.
    + intros st' Hlt. exists (Error "boom"). unfold third_time_lucky. simpl in *.
      destruct (world st' <? 2) eqn:E; [done|]. apply Nat.ltb_ge in E. lia.
    + intros st' Heq. unfold third_time_lucky. simpl in *.
      destruct (world st' <? 2) eqn:E; [|done]. apply Nat.ltb_lt in E. lia.
Defined.


End RetryExamples.

(* ===================================================================== *)
(** * Properties of the vector store writer *)
(* ===================================================================== *)

Section BatchFacts.
Import Chunker Retry.
Context {A : Type}.

Lemma chunk_loop_offsets (arr : list A) (size : nat) :
  0 < size →
  ∀ fuel n i out,
    length arr - i < fuel →
    length arr - i ≤ n →
    chunk_loop fuel arr size i out =
      Some (out ++ map (λ i, slice arr i (i + size))
                       (offsets_from n (length arr) size i)).
Proof.
  intros Hsz fuel. induction fuel as [|fuel IH]; intros n i out Hf Hn; [lia|].
  simpl. destruct (i <? length arr) eqn:Hi.
  - apply Nat.ltb_lt in Hi. destruct n as [|n]; [lia|]. simpl.
    assert ((i <? length arr) = true) as -> by by apply Nat.ltb_lt.
    rewrite (IH n); [|lia|lia]. simpl. by rewrite <- app_assoc.
  - f_equal. destruct n; simpl; [by rewrite app_nil_r|].
    rewrite Hi. by rewrite app_nil_r.
Qed.

(** [chunk] cuts at the offsets [0, size, 2*size, ...]. *)
Lemma chunk_offsets (arr : list A) (size : nat) :
  0 < size →
  chunk arr size =
    Some (map (λ i, slice arr i (i + size)) (offsets (length arr) size)).
Proof.
  intros Hsz. unfold chunk, offsets.
  rewrite (chunk_loop_offsets arr size Hsz _ (length arr) 0 []); [done|lia|lia].
Qed.

Lemma offsets_from_concat (arr : list A) (size : nat) :
  0 < size →
  ∀ n i, length arr - i ≤ n →
    concat (map (λ i, slice arr i (i + size))
                (offsets_from n (length arr) size i)) = drop i arr.
Proof.
  intros Hsz n. induction n as [|n IH]; intros i Hn; simpl.
  - rewrite drop_ge; [done|lia].
  - destruct (i <? length arr) eqn:Hi.
    + simpl. rewrite IH; [|apply Nat.ltb_lt in Hi; lia].
      unfold slice. replace (i + size - i) with size by lia.
      rewrite <- drop_drop. apply take_drop.
    + apply Nat.ltb_ge in Hi. by rewrite drop_ge.
Qed.

Lemma offsets_from_lookup (len step : nat) :
  ∀ n i k j, offsets_from n len step i !! k = Some j →
    j = i + k * step ∧ j < len.
Proof.
  induction n as [|n IH]; intros i k j; simpl; [done|].
  destruct (i <? len) eqn:Hi; [|done].
  destruct k as [|k]; simpl.
  - intros [= <-]. apply Nat.ltb_lt in Hi. lia.
  - intros Hk. apply IH in Hk. lia.
Qed.

(** The batches of [chunk]: consecutive, none empty, none longer than
    [size], and all but the last of length [size]. *)
Lemma chunk_spec (arr : list A) (size : nat) :
  0 < size →
  ∃ batches,
    chunk arr size = Some batches ∧
    concat batches = arr ∧
    Forall (λ b, 1 ≤ length b ≤ size) batches ∧
    (∀ i b, batches !! i = Some b → S i < length batches → length b = size).
Proof.
  intros Hsz. eexists. split; [by apply chunk_offsets|].
  split; [|split].
  - unfold offsets. rewrite offsets_from_concat; [done|lia|lia].
  - apply Forall_forall. intros b Hb.
    apply list_elem_of_fmap in Hb as (i & -> & Hi).
    apply list_elem_of_lookup in Hi as [k Hk].
    apply offsets_from_lookup in Hk as [_ Hlt].
    unfold slice. rewrite length_take, length_drop. lia.
  - intros i b Hb Hlast. rewrite length_map in Hlast.
    rewrite list_lookup_fmap in Hb.
    destruct (offsets (length arr) size !! i) as [j|] eqn:Hj; [|done].
    simpl in Hb. injection Hb as <-.
    destruct (lookup_lt_is_Some_2 (offsets (length arr) size) (S i) Hlast)
      as [j' Hj'].
    apply offsets_from_lookup in Hj as [-> _].
    apply offsets_from_lookup in Hj' as [-> Hlt].
    unfold slice. rewrite length_take, length_drop. simpl in Hlt. lia.
Qed.

End BatchFacts.

Section StoreFacts.
Import Url Effects Retry Store.
Context {W : Type} {RT : Runtime W}.

Lemma commits_app (l1 l2 : list event) : commits (l1 ++ l2) = commits l1 ++ commits l2.
Proof. unfold commits. apply omap_app. Qed.


(** The backoff without a callback only draws a random number and
    sleeps. *)
Lemma before_retry_plain tries baseDelayMs jitter attempt err (st : St W) :
  ∃ w ms,
    before_retry tries baseDelayMs jitter None attempt err st =
      (Ok tt, mkSt w (log st ++ ms)) ∧
    Forall store_event ms ∧ commits ms = [].
Proof.
  unfold before_retry. destruct (attempt <? tries).
  - unfold jittered, bind, ask, ret, sleep, emit. destruct jitter; simpl.
    + destruct (rt_random (world st)) as [r w']. simpl.
      eexists _, [_]. repeat split. by repeat constructor.
    + eexists _, [_]. repeat split. by repeat constructor.
  - exists (world st), []. rewrite app_nil_r. by destruct st.
Qed.

Lemma try_index_upsert index batch (st : St W) :
  (∃ w, try (index_upsert index batch) st =
          (Ok (inr tt), mkSt w (log st ++ [EvUpserted index batch]))) ∨
  (∃ e w, try (index_upsert index batch) st = (Ok (inl e), mkSt w (log st))).
Proof.
  unfold try, index_upsert, bind, call, emit.
  destruct (rt_upsert index batch (world st)) as [[e|[]] w]; simpl; eauto.
Qed.

(** What a retried [index.upsert] leaves in the log: the batch, once,
    when it returns, and no batch when it throws. *)
Lemma withRetry_loop_upsert index batch tries baseDelayMs jitter :
  ∀ remaining attempt lastErr (st : St W),
    ∃ st' ms,
      log st' = log st ++ ms ∧ Forall store_event ms ∧
      ((withRetry_loop (index_upsert index batch) tries baseDelayMs jitter None
          remaining attempt lastErr st = (Ok tt, st') ∧
        commits ms = [(index, batch)]) ∨
       (∃ e, withRetry_loop (index_upsert index batch) tries baseDelayMs jitter None
               remaining attempt lastErr st = (Throw e, st') ∧
             commits ms = [])).
Proof.
  induction remaining as [|remaining IH]; intros attempt lastErr st.
  - exists st, []. rewrite app_nil_r. repeat split; [done|]. right. by exists lastErr.
  - destruct (try_index_upsert index batch st) as [[w Htry]|(e & w & Htry)].
    + exists (mkSt w (log st ++ [EvUpserted index batch])), [EvUpserted index batch].
      repeat split; [by repeat constructor|]. left.
      simpl. unfold bind. by rewrite Htry.
    + destruct (before_retry_plain tries baseDelayMs jitter attempt e
                  (mkSt w (log st))) as (w1 & ms1 & Hb & Hq1 & Hc1).
      simpl in Hb.
      destruct (IH (S attempt) e (mkSt w1 (log st ++ ms1)))
        as (st' & ms & Hlog & Hq & Hres).
      assert (withRetry_loop (index_upsert index batch) tries baseDelayMs jitter
                None (S remaining) attempt lastErr st =
              withRetry_loop (index_upsert index batch) tries baseDelayMs jitter
                None remaining (S attempt) e (mkSt w1 (log st ++ ms1))) as ->.
      { simpl. unfold bind at 1. rewrite Htry. unfold bind at 1. by rewrite Hb. }
      exists st', (ms1 ++ ms). simpl in Hlog.
      rewrite Hlog, <- app_assoc.
      split; [done|]. split; [by apply Forall_app|].
      by rewrite commits_app, Hc1.
Qed.

Lemma upsert_batches_cons index batch batches total (st : St W) :
  upsert_batches index (batch :: batches) total st =
  match withRetry_loop (index_upsert index batch) 3 300%Q default_jitter None
          3 1 Undefined st with
  | (Ok _, st1) => upsert_batches index batches (total + length batch) st1
  | (Throw e, st1) => (Throw e, st1)
  | (Diverge, st1) => (Diverge, st1)
  end.
Proof. reflexivity. Qed.

(** The loop over the batches: a prefix of the batches is committed; the
    loop returns the total when that is all of them and throws
    otherwise. *)
Lemma upsert_batches_spec index :
  ∀ batches total (st : St W),
    ∃ st' ms k,
      log st' = log st ++ ms ∧ Forall store_event ms ∧
      commits ms = map (pair index) (take k batches) ∧
      ((k = length batches ∧
        upsert_batches index batches total st =
          (Ok (total + length (concat batches)), st')) ∨
       (k < length batches ∧
        ∃ e, upsert_batches index batches total st = (Throw e, st'))).
Proof.
  induction batches as [|batch batches IH]; intros total st.
  - exists st, [], 0. simpl. rewrite app_nil_r, Nat.add_0_r.
    repeat split; [done|]. by left.
  - rewrite upsert_batches_cons.
    destruct (withRetry_loop_upsert index batch 3 300%Q default_jitter 3 1 Undefined st)
      as (st1 & ms1 & Hlog1 & Hq1 & [[Hr Hc1]|(e & Hr & Hc1)]); rewrite Hr.
    + destruct (IH (total + length batch) st1)
        as (st' & ms & k & Hlog & Hq & Hc & Hres).
      exists st', (ms1 ++ ms), (S k).
      rewrite Hlog, Hlog1, <- app_assoc.
      split; [done|]. split; [by apply Forall_app|].
      rewrite commits_app, Hc1, Hc. split; [done|].
      destruct Hres as [[-> Hres]|[Hk (e & Hres)]]; [left|right].
      * split; [done|]. rewrite Hres. simpl. rewrite length_app. do 2 f_equal. lia.
      * split; [simpl; lia|]. by exists e.
    + exists st1, ms1, 0. split; [done|]. split; [done|]. split; [done|].
      right. split; [simpl; lia|]. by exists e.
Qed.

Lemma first_invalid_valid (vectors : list vector) i :
  first_invalid i vectors = None ↔ Forall (λ v, invalid_vector v = false) vectors.
Proof.
  revert i. induction vectors as [|v vs IH]; intros i; simpl.
  - split; [by constructor|done].
  - destruct (invalid_vector v) eqn:Hv.
    + split; [done|]. intros H. apply Forall_cons in H as [H _]. congruence.
    + rewrite IH. split; [by constructor|]. by intros [_ H]%Forall_cons.
Qed.


Lemma upsertVectors_valid vectors namespace batches (st : St W) :
  vectors ≠ [] →
  first_invalid 0 vectors = None →
  chunk vectors 100 = Some batches →
  upsertVectors vectors namespace st =
    upsert_batches (getIndexForNamespace namespace) batches 0 st.
Proof.
  intros Hne Hvalid Hchunk. unfold upsertVectors.
  destruct vectors; [done|]. by rewrite Hvalid, Hchunk.
Qed.


End StoreFacts.

Section StoreExamples.
Import Effects Retry Store Worlds.



End StoreExamples.

(* ===================================================================== *)
(** * Properties of the crawl loop *)
(* ===================================================================== *)

Section PageFacts.
Import Url Utilities Text Chunker Effects Retry Store Scraper Crawl.
Context {W : Type} {RT : Runtime W}.

Lemma silent_ret {A} (a : A) : silent (ret a : M W A).
Proof. by intros st. Qed.

Lemma silent_throw {A} e : silent (throw e : M W A).
Proof. by intros st. Qed.

Lemma silent_call {A} (f : W → (exn + A) * W) : silent (call f).
Proof. intros st. unfold call. by destruct (f (world st)) as [[e|a] w]. Qed.

Lemma silent_ask {A} (f : W → A * W) : silent (ask f).
Proof. intros st. unfold ask. by destruct (f (world st)) as [a w]. Qed.

Lemma silent_bind {A B} (m : M W A) (k : A → M W B) :
  silent m → (∀ a, silent (k a)) → silent (bind m k).
Proof.
  intros Hm Hk st. unfold bind. destruct (Hm st) as [Hd Hl].
  destruct (m st) as [[a|e|] st1]; simpl in *; [|done|done].
  destruct (Hk a st1) as [Hd' Hl']. split; [done|congruence].
Qed.

Lemma silent_try {A} (m : M W A) : silent m → silent (try m).
Proof.
  intros Hm st. unfold try. destruct (Hm st) as [Hd Hl].
  by destruct (m st) as [[a|e|] st1].
Qed.

Lemma silent_orTypeError {A} (o : option A) msg : silent (orTypeError o msg : M W A).
Proof. destruct o; [apply silent_ret|apply silent_throw]. Qed.


Lemma fetchViaHttp_silent url : silent (fetchViaHttp url).
Proof.
  apply silent_bind; [apply silent_call|]. intros res.
  destruct (negb (res_ok res)); [apply silent_throw|]. cbv zeta.
  case_match; [apply silent_throw|apply silent_ret].
Qed.

Lemma fetchViaBrowser_silent url : silent (fetchViaBrowser url).
Proof.
  apply silent_bind; [apply silent_call|]. intros page.
  cbv zeta. case_match; apply silent_ret.
Qed.

Lemma scrapeText_silent rawUrl : silent (scrapeText rawUrl).
Proof.
  unfold scrapeText. case_match; [apply silent_throw|].
  apply silent_bind; [apply silent_orTypeError|]. intros url.
  apply silent_bind; [apply silent_try, fetchViaHttp_silent|].
  intros [e|text]; [apply fetchViaBrowser_silent|].
  case_match; [apply silent_ret|apply fetchViaBrowser_silent].
Qed.





End PageFacts.

Section LoopFacts.
Import Url Utilities Text Chunker Effects Retry Store Scraper Crawl.
Context {W : Type} {RT : Runtime W}.
Variable cfg : config.









End LoopFacts.

Section InvariantFacts.
Import Url Utilities Text Chunker Effects Retry Store Scraper Crawl.
Context {W : Type} {RT : Runtime W}.
Variable cfg : config.












End InvariantFacts.

Section CrawlTheorems.
Import Url Utilities Text Chunker Effects Retry Store Scraper Crawl.
Context {W : Type} {RT : Runtime W}.





End CrawlTheorems.

Section CrawlExamples.
Import Url Utilities Text Chunker Effects Retry Store Scraper Crawl Worlds.



Example crawl_one_page :
  (ingest_crawl (RT := sim_runtime (one_page None)) 5
     (bare_request (s "https://example.com/docs#top")) start).1 =
  Ok (CrawlOk (s "https://example.com/docs#top") None (Some (s "/docs")) 1 50 1 1).
Proof. vm_compute. done. Qed.

End CrawlExamples.

(* ===================================================================== *)
(** * Properties of the address normalizer *)
(* ===================================================================== *)

Section BreakFacts.
Import Url.







Lemma one_of_weaken (cs cs' : string) c :
  (∀ x, x ∈ list_ascii_of_string cs' → x ∈ list_ascii_of_string cs) →
  one_of cs' c = true → one_of cs c = true.
Proof.
  unfold one_of. intros Hsub H. apply bool_decide_eq_true in H.
  apply bool_decide_eq_true. by apply Hsub.
Qed.



End BreakFacts.

Section ParserFacts.
Import Url.





















End ParserFacts.

Section UrlencodedFacts.
Import Url.

















End UrlencodedFacts.

Section SlashFacts.
Import Url Utilities.










End SlashFacts.

Section CleanFacts.
Import Url Utilities.




Lemma update_query_twice u l1 l2 :
  update_query (update_query u l1) l2 = update_query u l2.
Proof. done. Qed.











End CleanFacts.

Section NormalizerTheorems.
Import Url Utilities.







End NormalizerTheorems.

Section GuardTheorems.
Import Url Utilities Text Effects Scraper.
Context {W : Type} {RT : Runtime W}.



End GuardTheorems.

Section NormalizerExamples.
Import Url Utilities Text Effects Scraper Worlds.





End NormalizerExamples.

(* ===================================================================== *)
(** * More properties of the chunker *)
(* ===================================================================== *)

Section ChunkerEdges.
Import Chunker.

Lemma trimStart_head (x : jstring) c :
  head (trimStart x) = Some c → is_space c = false.
Proof.
  induction x as [|d x IH]; simpl; [done|].
  destruct (is_space d) eqn:Hd; [done|]. simpl. by intros [= <-].
Qed.

Lemma trimStart_spaces (x : jstring) :
  ∃ l, x = l ++ trimStart x ∧ Forall (λ c, is_space c = true) l.
Proof.
  induction x as [|d x (l & Hx & Hl)]; simpl; [by exists []|].
  destruct (is_space d) eqn:Hd.
  - exists (d :: l). split; [simpl; by f_equal|by constructor].
  - by exists [].
Qed.

Lemma trimEnd_spaces (x : jstring) :
  ∃ r, x = trimEnd x ++ r ∧ Forall (λ c, is_space c = true) r.
Proof.
  destruct (trimStart_spaces (rev x)) as (l & Hx & Hl).
  exists (rev l). split.
  - unfold trimEnd. rewrite <- rev_app_distr, <- Hx. by rewrite rev_involutive.
  - by apply Forall_rev.
Qed.

Lemma last_rev {A} (x : list A) : last (rev x) = head x.
Proof. destruct x as [|a x]; simpl; [done|]. apply last_snoc. Qed.

Lemma trimEnd_last (x : jstring) c :
  last (trimEnd x) = Some c → is_space c = false.
Proof.
  unfold trimEnd. rewrite last_rev. apply trimStart_head.
Qed.

Lemma trimEnd_head (x : jstring) : trimEnd x ≠ [] → head (trimEnd x) = head x.
Proof.
  intros Hne. rewrite trimEnd_prefix in *.
  destruct x; [by rewrite take_nil in Hne|].
  destruct (length (trimEnd (n :: x))); [done|done].
Qed.

(** [trim] removes white space at both ends and nothing else. *)
Lemma trim_spaces (x : jstring) :
  ∃ l r, x = l ++ trim x ++ r ∧
    Forall (λ c, is_space c = true) l ∧ Forall (λ c, is_space c = true) r ∧
    length l = length x - length (trimStart x).
Proof.
  destruct (trimStart_spaces x) as (l & Hx & Hl).
  destruct (trimEnd_spaces (trimStart x)) as (r & Hy & Hr).
  exists l, r. split_and!; [|done|done|].
  - unfold trim. by rewrite <- Hy.
  - rewrite Hx at 1. rewrite length_app. lia.
Qed.

Lemma trim_ends (x : jstring) :
  (∀ c, head (trim x) = Some c → is_space c = false) ∧
  (∀ c, last (trim x) = Some c → is_space c = false).
Proof.
  split; intros c Hc.
  - unfold trim in Hc. rewrite trimEnd_head in Hc.
    + by apply (trimStart_head x).
    + intros Hnil. by rewrite Hnil in Hc.
  - by apply (trimEnd_last (trimStart x)).
Qed.

Lemma trimStart_all (x : jstring) :
  Forall (λ c, is_space c = true) x → trimStart x = [].
Proof. induction 1 as [|c x Hc _ IH]; simpl; [done|]. by rewrite Hc. Qed.

Lemma trim_all (x : jstring) :
  Forall (λ c, is_space c = true) x → trim x = [].
Proof. intros H. unfold trim. by rewrite trimStart_all. Qed.

(** A code unit that is not white space survives [trim], at its place. *)
Lemma trim_keeps (x : jstring) p c :
  x !! p = Some c → is_space c = false →
  let lead := length x - length (trimStart x) in
  lead ≤ p < lead + length (trim x).
Proof.
  intros Hp Hc lead.
  destruct (trim_spaces x) as (l & r & Hx & Hl & Hr & Hlen). fold lead in Hlen.
  rewrite <- Hlen. rewrite Hx in Hp.
  destruct (decide (p < length l)) as [Hlt|Hge].
  { rewrite lookup_app_l in Hp by done.
    rewrite Forall_lookup in Hl. specialize (Hl _ _ Hp). simpl in Hl. congruence. }
  rewrite lookup_app_r in Hp by lia.
  destruct (decide (p - length l < length (trim x))) as [Hlt|Hge2]; [lia|].
  rewrite lookup_app_r in Hp by lia.
  rewrite Forall_lookup in Hr. specialize (Hr _ _ Hp). simpl in Hr. congruence.
Qed.

Lemma offsets_from_count (len step : nat) :
  0 < step →
  ∀ n i, length (offsets_from n len step i) * step < (len - i) + step.
Proof.
  intros Hs n. induction n as [|n IH]; intros i; simpl; [lia|].
  destruct (i <? len) eqn:Hi; simpl; [|lia].
  apply Nat.ltb_lt in Hi. specialize (IH (i + step)).
  destruct (decide (i + step < len)); [lia|].
  destruct n; simpl in *; [lia|].
  assert ((i + step <? len) = false) as Hf by (apply Nat.ltb_ge; lia).
  rewrite Hf in *. simpl. lia.
Qed.

(** X1. The chunks that [chunkText] emits: none is empty, none starts or ends
    with white space, none is longer than [maxChars], each one is a
    contiguous piece of the text, and there are at most
    [ceil (text.length / (maxChars - overlap))] of them. *)
Theorem chunkText_chunks (text : jstring) (maxChars overlap : nat) :
  overlap < maxChars →
  ∃ chunks,
    chunkText text maxChars overlap = Some chunks ∧
    Forall (λ c,
      c ≠ [] ∧ length c ≤ maxChars ∧
      (∀ d, head c = Some d → is_space d = false) ∧
      (∀ d, last c = Some d → is_space d = false) ∧
      ∃ pre post, text = pre ++ c ++ post) chunks ∧
    length chunks * (maxChars - overlap) < length text + (maxChars - overlap).
Proof.
  intros Hlt. exists (spec_chunks text maxChars overlap).
  split; [by apply chunkText_total|]. unfold spec_chunks. split.
  - apply Forall_forall. intros c [Hne Hin]%list_elem_of_filter.
    apply list_elem_of_fmap in Hin as (i & -> & _).
    destruct (trim_spaces (window text maxChars i)) as (l & r & Hw & _).
    split_and!; [done| | | |].
    + assert (length (window text maxChars i) ≤ maxChars) as Hle.
      { unfold window. rewrite length_take. lia. }
      rewrite Hw in Hle. rewrite !length_app in Hle. lia.
    + apply trim_ends.
    + apply trim_ends.
    + exists (take i text ++ l), (r ++ drop maxChars (drop i text)).
      rewrite <- (take_drop i text) at 1.
      rewrite <- (take_drop maxChars (drop i text)) at 1.
      fold (window text maxChars i). rewrite Hw at 1.
      by rewrite <- !app_assoc.
  - pose proof (offsets_from_count (length text) (maxChars - overlap)
                  ltac:(lia) (length text) 0) as Hn.
    fold (offsets (length text) (maxChars - overlap)) in Hn.
    set (os := offsets _ _) in *.
    assert (length (filter (λ p : jstring, p ≠ [])
                      (map (λ i, trim (window text maxChars i)) os)) ≤ length os) as Hf.
    { etrans; [apply length_filter|]. by rewrite length_map. }
    nia.
Qed.

Lemma chunkText_chunks_witness :
  1 < 3 ∧
  ∃ chunks,
    chunkText (lit " ab  cd ") 3 1 = Some chunks ∧
    chunks = [lit "ab"; lit "b"; lit "cd"; lit "d"].
Proof.
  split; [lia|].
  destruct (chunkText_chunks (lit " ab  cd ") 3 1 ltac:(lia)) as (chunks & Hc & _).
  exists chunks. split; [exact Hc|].
  vm_compute in Hc. by injection Hc as <-.
Defined.

Lemma chunkSpans_loop_covers (text : jstring) (maxChars overlap : nat) :
  overlap < maxChars →
  ∀ fuel i spans,
    length text - i < fuel →
    ∃ new,
      chunkSpans_loop fuel text maxChars overlap i spans = Some (spans ++ new) ∧
      ∀ j c, i ≤ j → text !! j = Some c → is_space c = false →
        ∃ a b, (a, b) ∈ new ∧ a ≤ j < b.
Proof.
  intros Hlt fuel. induction fuel as [|fuel IH]; intros i spans Hf; [lia|].
  simpl. destruct (i <? length text) eqn:Hi.
  - apply Nat.ltb_lt in Hi.
    set (w := slice text i (i + maxChars)).
    set (start := i + (length w - length (trimStart w))).
    set (here := if truthy (trim w) then [(start, start + length (trim w))] else []).
    destruct (IH (i + (maxChars - overlap)) (spans ++ here) ltac:(lia))
      as (new & Hrun & Hcov).
    exists (here ++ new). split.
    { rewrite app_assoc, <- Hrun. f_equal. subst here.
      destruct (truthy (trim w)); [done|by rewrite app_nil_r]. }
    intros j c Hij Hj Hc.
    destruct (decide (j < i + (maxChars - overlap))) as [Hnear|Hfar].
    + assert (w !! (j - i) = Some c) as Hw.
      { subst w. unfold slice. rewrite lookup_take_lt by lia.
        rewrite lookup_drop. by replace (i + (j - i)) with j by lia. }
      pose proof (trim_keeps w (j - i) c Hw Hc) as Hk. simpl in Hk.
      exists start, (start + length (trim w)). split; [|subst start; lia].
      apply elem_of_app. left. subst here.
      destruct (trim w) eqn:Ht; [simpl in Hk; lia|]. simpl. by left.
    + destruct (Hcov j c ltac:(lia) Hj Hc) as (a & b & Hin & Hab).
      exists a, b. split; [|done]. apply elem_of_app. by right.
  - apply Nat.ltb_ge in Hi. exists []. split; [by rewrite app_nil_r|].
    intros j c Hij Hj. apply lookup_lt_Some in Hj. lia.
Qed.

Lemma window_spaces (text : jstring) (maxChars i : nat) :
  Forall (λ c, is_space c = true) text →
  Forall (λ c, is_space c = true) (window text maxChars i).
Proof. intros H. unfold window. by apply Forall_take, Forall_drop. Qed.

Lemma chunkText_spans_cover (text : jstring) (maxChars overlap : nat) :
  overlap < maxChars →
  ∃ chunks spans,
    chunkText text maxChars overlap = Some chunks ∧
    chunkSpans text maxChars overlap = Some spans ∧
    chunks = map (λ ab, slice text ab.1 ab.2) spans ∧
    (∀ j c, text !! j = Some c → is_space c = false →
       ∃ a b, (a, b) ∈ spans ∧ a ≤ j < b) ∧
    (chunks = [] ↔ Forall (λ c, is_space c = true) text).
Proof.
  intros Hlt.
  destruct (chunkSpans_loop_covers text maxChars overlap Hlt
              (S (length text)) 0 [] ltac:(lia)) as (spans & Hs & Hcov).
  simpl app in Hs. fold (chunkSpans text maxChars overlap) in Hs.
  pose proof (chunkSpans_slices text maxChars overlap) as Hc.
  rewrite Hs in Hc. simpl in Hc.
  exists (map (λ ab, slice text ab.1 ab.2) spans), spans.
  split_and!; [done|done|done| |].
  - intros j c Hj Hsp. apply (Hcov j c); [lia|done|done].
  - split.
    + intros Hnil. apply fmap_nil_inv in Hnil. subst spans.
      apply Forall_lookup. intros j c Hj. simpl.
      destruct (is_space c) eqn:Hsp; [done|].
      destruct (Hcov j c ltac:(lia) Hj Hsp) as (a & b & Hin & _).
      by apply elem_of_nil in Hin.
    + intros Hall. rewrite (chunkText_total text maxChars overlap Hlt) in Hc.
      injection Hc as <-. unfold spec_chunks.
      destruct (filter _ _) as [|p ps] eqn:Hfil; [done|].
      assert (p ∈ p :: ps) as Hin by by left.
      rewrite <- Hfil in Hin.
      apply list_elem_of_filter in Hin as [Hne (i & -> & _)%list_elem_of_fmap].
      destruct Hne. apply trim_all. by apply window_spaces.
Qed.

(** X2. No code unit of the text other than white space is lost: it lies
    within the span of some chunk. Hence the chunker emits no chunk
    exactly when the text is empty or all white space. *)
Theorem chunkText_covers (text : jstring) (maxChars overlap : nat) :
  overlap < maxChars →
  ∃ chunks spans,
    chunkText text maxChars overlap = Some chunks ∧
    chunkSpans text maxChars overlap = Some spans ∧
    chunks = map (λ ab, slice text ab.1 ab.2) spans ∧
    (∀ j c, text !! j = Some c → is_space c = false →
       ∃ a b, (a, b) ∈ spans ∧ a ≤ j < b) ∧
    (chunks = [] ↔ Forall (λ c, is_space c = true) text).
Proof. apply chunkText_spans_cover. Qed.

Lemma chunkText_covers_witness :
  150 < 1200 ∧
  ∃ chunks spans,
    chunkText (lit "  hello  ") 1200 150 = Some chunks ∧
    chunkSpans (lit "  hello  ") 1200 150 = Some spans ∧
    chunks = [lit "hello"] ∧ spans = [(2, 7)].
Proof.
  split; [lia|].
  destruct (chunkText_covers (lit "  hello  ") 1200 150 ltac:(lia))
    as (chunks & spans & Hc & Hs & _).
  exists chunks, spans. split; [exact Hc|]. split; [exact Hs|].
  vm_compute in Hc, Hs. injection Hc as <-. injection Hs as <-. done.
Defined.



End ChunkerEdges.

Section ChunkerExamples.
Import Chunker.


End ChunkerExamples.

(* ===================================================================== *)
(** * Batches and clamped numbers *)
(* ===================================================================== *)

Section BatchEdges.
Import Chunker Retry.
Context {A : Type}.



End BatchEdges.

Section BatchExamples.
Import Retry.


End BatchExamples.

Section ClampFacts.
Import Retry Validation.

Lemma trunc_Z (z : Z) : trunc (inject_Z z) = z.
Proof. unfold trunc. destruct (Qle_bool 0 (inject_Z z)); [apply Qfloor_Z|apply Qceiling_Z]. Qed.

Lemma trunc_mono (n n' : Q) : (n <= n')%Q → (trunc n ≤ trunc n')%Z.
Proof.
  intros Hle. unfold trunc.
  destruct (Qle_bool 0 n) eqn:Hn; destruct (Qle_bool 0 n') eqn:Hn'.
  - by apply Qfloor_resp_le.
  - apply Qle_bool_iff in Hn.
    assert (¬ (0 <= n')%Q) as Hneg by (rewrite <- Qle_bool_iff; congruence).
    destruct Hneg. lra.
  - assert (¬ (0 <= n)%Q) as Hneg by (rewrite <- Qle_bool_iff; congruence).
    apply Qle_bool_iff in Hn'.
    assert (Qceiling n ≤ 0)%Z.
    { change 0%Z with (Qceiling 0). apply Qceiling_resp_le. lra. }
    assert (0 ≤ Qfloor n')%Z.
    { change 0%Z with (Qfloor 0). by apply Qfloor_resp_le. }
    lia.
  - by apply Qceiling_resp_le.
Qed.

(** X5. [clampInt]: a value that is not a finite number gives [fallback], as
    it is, clamped or not; a finite one gives an integer within
    [[min, max]] (for [min <= max]), itself when it is an integer of that
    range, and a larger value never gives a smaller result. *)
Theorem clampInt_range (min max fallback : Z) :
  clampInt None min max fallback = fallback ∧
  (∀ n, (min ≤ max)%Z → (min ≤ clampInt (Some n) min max fallback ≤ max)%Z) ∧
  (∀ z, (min ≤ z ≤ max)%Z → clampInt (Some (inject_Z z)) min max fallback = z) ∧
  (∀ n n', (n <= n')%Q →
     (clampInt (Some n) min max fallback ≤ clampInt (Some n') min max fallback)%Z).
Proof.
  split; [done|]. split_and!.
  - intros n Hle. unfold clampInt. lia.
  - intros z Hz. unfold clampInt. rewrite trunc_Z. lia.
  - intros n n' Hle. unfold clampInt. pose proof (trunc_mono n n' Hle). lia.
Qed.

Lemma clampInt_range_witness :
  (1 ≤ 50)%Z ∧ (1 ≤ 7 ≤ 50)%Z ∧ (29 # 10 <= 7)%Q ∧
  clampInt (Some (29 # 10)) 1 50 5 = 2%Z ∧
  clampInt (Some 7%Q) 1 50 5 = 7%Z ∧
  (1 ≤ clampInt (Some (-3)%Q) 1 50 5 ≤ 50)%Z ∧
  (clampInt (Some (29 # 10)) 1 50 5 ≤ clampInt (Some 7%Q) 1 50 5)%Z.
Proof.
  destruct (clampInt_range 1 50 5) as (_ & Hr & Hid & Hm).
  split; [lia|]. split; [lia|]. split; [done|]. split; [reflexivity|].
  split; [exact (Hid 7%Z ltac:(lia))|].
  split; [apply Hr; lia|]. by apply Hm.
Defined.

Lemma normalizeTopK_bounds (value : option Q) :
  (1 ≤ normalizeTopK value no_topK_options ≤ 50)%Z.
Proof. unfold normalizeTopK. simpl. destruct value as [n|]; simpl; lia. Qed.

(** X6. The [topK] of the routes, [normalizeTopK(topK, 5)]: always an integer
    from 1 to 50, and 5 when [Number(topK)] is not finite, as for a
    request without [topK]; [queryVector], which clamps to 1..200 again,
    leaves it as it is. *)
Theorem normalizeTopK_range (value : option Q) :
  let k := normalizeTopK value no_topK_options in
  (1 ≤ k ≤ 50)%Z ∧
  normalizeTopK None no_topK_options = 5%Z ∧
  clampInt (Some (inject_Z k)) 1 200 8 = k.
Proof.
  intros k.
  pose proof (normalizeTopK_bounds value) as Hk. fold k in Hk.
  split; [done|]. split; [done|].
  unfold clampInt. rewrite trunc_Z. lia.
Qed.

End ClampFacts.

(* ===================================================================== *)
(** * The retry wrapper for any number of tries *)
(* ===================================================================== *)

Section RetryGeneral.
Import Effects Retry.
Context {W : Type} {RT : Runtime W} {A : Type}.

Variable calls : W → nat.
Variable fn : M W A.
Variable o : retry_options W.

Lemma withRetry_loop_exhausts tries baseDelayMs jitter :
  keeps_calls calls o →
  counts_calls calls fn →
  (∀ st, ∃ e, (fn st).1 = Throw e) →
  ∀ remaining attempt lastErr st,
    ∃ e st',
      withRetry_loop fn tries baseDelayMs jitter (opt_onRetry o)
        remaining attempt lastErr st = (Throw e, st') ∧
      calls (world st') = calls (world st) + remaining ∧
      (remaining = 0 → e = lastErr ∧ st' = st).
Proof.
  intros Hkeep Hcount Hfail remaining.
  induction remaining as [|remaining IH]; intros attempt lastErr st.
  - exists lastErr, st. split; [done|]. split; [lia|done].
  - destruct (Hfail st) as [e He].
    destruct (withRetry_loop_fail calls fn o tries baseDelayMs jitter remaining
                attempt lastErr st e Hkeep He) as (st1 & Hc & _ & ->).
    destruct (IH (S attempt) e st1) as (e' & st' & Hrun & Hc' & _).
    exists e', st'. split; [done|]. split; [|lia].
    rewrite Hc', Hc, (Hcount st). lia.
Qed.

Lemma withRetry_loop_succeeds tries baseDelayMs jitter v :
  keeps_calls calls o →
  counts_calls calls fn →
  ∀ k remaining attempt lastErr st,
    k < remaining →
    (∀ st', calls (world st') < calls (world st) + k → ∃ e, (fn st').1 = Throw e) →
    (∀ st', calls (world st') = calls (world st) + k → (fn st').1 = Ok v) →
    ∃ st_last,
      withRetry_loop fn tries baseDelayMs jitter (opt_onRetry o)
        remaining attempt lastErr st = (Ok v, (fn st_last).2) ∧
      calls (world (fn st_last).2) = calls (world st) + k + 1.
Proof.
  intros Hkeep Hcount k.
  induction k as [|k IH]; intros remaining attempt lastErr st Hk Hfail Hok;
    (destruct remaining as [|remaining]; [lia|]).
  - exists st. split; [apply withRetry_loop_ok; apply Hok; lia|].
    rewrite (Hcount st). lia.
  - destruct (Hfail st ltac:(lia)) as [e He].
    destruct (withRetry_loop_fail calls fn o tries baseDelayMs jitter remaining
                attempt lastErr st e Hkeep He) as (st1 & Hc & _ & ->).
    pose proof (Hcount st) as Hc1.
    destruct (IH remaining (S attempt) e st1 ltac:(lia)) as (st_last & Hrun & Hcl).
    + intros st' Hlt. apply Hfail. lia.
    + intros st' Heq. apply Hok. lia.
    + exists st_last. split; [done|lia].
Qed.

(** X7. The number of attempts of [withRetry], for any [tries]. An operation
    that fails on every invocation is invoked exactly [tries] times
    before the wrapper throws; with [tries = 0] it is not invoked at all
    and the wrapper throws [undefined]. An operation that first returns
    on its invocation number [k + 1 <= tries] is invoked exactly [k + 1]
    times, and what it returns is the result. *)
Theorem withRetry_attempts (tries : nat) :
  opt_tries o = Some tries →
  counts_calls calls fn →
  keeps_calls calls o →
  (∀ st, (∀ st', ∃ e, (fn st').1 = Throw e) →
     ∃ e st',
       withRetry fn o st = (Throw e, st') ∧
       calls (world st') = calls (world st) + tries ∧
       (tries = 0 → e = Undefined ∧ st' = st)) ∧
  (∀ st v k,
     k < tries →
     (∀ st', calls (world st') < calls (world st) + k → ∃ e, (fn st').1 = Throw e) →
     (∀ st', calls (world st') = calls (world st) + k → (fn st').1 = Ok v) →
     ∃ st_last,
       withRetry fn o st = (Ok v, (fn st_last).2) ∧
       calls (world (fn st_last).2) = calls (world st) + k + 1).
Proof.
  intros Ht Hcount Hkeep. unfold withRetry. rewrite Ht. simpl default. split.
  - intros st Hfail. by apply withRetry_loop_exhausts.
  - intros st v k Hk Hfail Hok. by apply withRetry_loop_succeeds.
Qed.

End RetryGeneral.

Section RetrySchedule.
Import Effects Retry.
Context {W : Type} {RT : Runtime W} {A : Type}.

Variable fn : M W A.

Lemma withRetry_loop_schedule tries baseDelayMs :
  (∀ st, ∃ e, (fn st).1 = Throw e ∧ log (fn st).2 = log st) →
  ∀ remaining attempt lastErr st,
    attempt + remaining = S tries →
    log (withRetry_loop fn tries baseDelayMs false None
           remaining attempt lastErr st).2 =
    log st ++ map (λ a, EvSleep (round (backoff baseDelayMs a)))
                  (seq attempt (remaining - 1)).
Proof.
  intros Hfail remaining.
  induction remaining as [|remaining IH]; intros attempt lastErr st Hn.
  - simpl. by rewrite app_nil_r.
  - simpl. unfold bind at 1, try.
    destruct (Hfail st) as (e & He & Hlog).
    destruct (fn st) as [r st1]. simpl in He, Hlog. subst r. simpl.
    unfold bind at 1, before_retry.
    destruct (attempt <? tries) eqn:Hlt.
    + apply Nat.ltb_lt in Hlt.
      unfold jittered, notify, sleep, emit, bind at 1 2, ret. simpl.
      rewrite (IH (S attempt) e _ ltac:(lia)). simpl.
      rewrite Nat.sub_0_r, Hlog, <- app_assoc. simpl.
      destruct remaining; [lia|]. simpl. by rewrite Nat.sub_0_r.
    + apply Nat.ltb_ge in Hlt. unfold ret at 1.
      rewrite (IH (S attempt) e _ ltac:(lia)).
      rewrite Hlog. replace remaining with 0 by lia. done.
Qed.

(** X8. The whole schedule of [withRetry] without jitter and without
    callback, on an operation that fails every time and logs nothing:
    after the attempts [1, ..., tries - 1] the wrapper sleeps
    [Math.round(baseDelayMs * 2^(attempt - 1))], each delay twice the one
    before, and after the last attempt it does not sleep. *)
Theorem withRetry_schedule (tries : nat) (baseDelayMs : Q) :
  (∀ st, ∃ e, (fn st).1 = Throw e ∧ log (fn st).2 = log st) →
  ∀ st,
    log (withRetry fn (mkRetryOptions (Some tries) (Some baseDelayMs)
                         (Some false) None) st).2 =
    log st ++ map (λ attempt, EvSleep (round (backoff baseDelayMs attempt)))
                  (seq 1 (tries - 1)).
Proof.
  intros Hfail st. unfold withRetry. simpl.
  destruct tries as [|n]; [simpl; by rewrite app_nil_r|].
  rewrite (withRetry_loop_schedule (S n) baseDelayMs Hfail (S n) 1 Undefined st); [|lia].
  done.
Qed.

End RetrySchedule.

Section RetryGeneralExamples.
Import Effects Retry Worlds.

Lemma withRetry_attempts_witness :
  (∃ e st',
     withRetry (RT := sim_runtime offline) failing_op
       (mkRetryOptions (Some 5) None None None) start = (Throw e, st') ∧
     world st' = world start + 5) ∧
  (∃ st_last,
     withRetry (RT := sim_runtime offline) (third_time_lucky (lit "ok"))
       (mkRetryOptions (Some 5) None None None) start =
       (Ok (lit "ok"), (third_time_lucky (lit "ok") st_last).2) ∧
     world (third_time_lucky (lit "ok") st_last).2 = world start + 2 + 1).
Proof.
  split.
  - assert (∃ e st',
              withRetry (RT := sim_runtime offline) failing_op
                (mkRetryOptions (Some 5) None None None) start = (Throw e, st') ∧
              world st' = world start + 5 ∧
              (5 = 0 → e = Undefined ∧ st' = start)) as (e & st' & Hrun & Hc & _).
    { refine (proj1 (withRetry_attempts (RT := sim_runtime offline)
                       (λ w, w) failing_op (mkRetryOptions (Some 5) None None None)
                       5 eq_refl _ _) start _).
      + intros st. reflexivity.
      + split; [reflexivity|]. intros f a e d st Hf. discriminate Hf.
      + intros st'. by exists (Error "boom"). }
    by exists e, st'.
  - refine (proj2 (withRetry_attempts (RT := sim_runtime offline)
                     (λ w, w) (third_time_lucky (lit "ok"))
                     (mkRetryOptions (Some 5) None None None) 5 eq_refl _ _)
              start (lit "ok") 2 ltac:(lia) _ _).
    + intros st. reflexivity.
    + split; [reflexivity|]. intros f a e d st Hf. discriminate Hf.
    + intros st' Hlt. exists (Error "boom"). unfold third_time_lucky. simpl in *.
      destruct (world st' <? 2) eqn:E; [done|]. apply Nat.ltb_ge in E. lia.
    + intros st' Heq. unfold third_time_lucky. simpl in *.
      destruct (world st' <? 2) eqn:E; [|done]. apply Nat.ltb_lt in E. lia.
Defined.

Lemma withRetry_schedule_witness :
  log (withRetry (RT := sim_runtime offline) failing_op
         (mkRetryOptions (Some 4) (Some 300%Q) (Some false) None) start).2 =
  [EvSleep 300; EvSleep 600; EvSleep 1200].
Proof.
  rewrite (withRetry_schedule (RT := sim_runtime offline) failing_op 4 300%Q).
  - reflexivity.
  - intros st. by exists (Error "boom").
Defined.

End RetryGeneralExamples.

(* ===================================================================== *)
(** * Validation in the vector store writer *)
(* ===================================================================== *)

Section StoreEdges.
Import Url Effects Retry Store.
Context {W : Type} {RT : Runtime W}.

Lemma first_invalid_least (vectors : list vector) :
  ∀ base i v,
    vectors !! i = Some v → invalid_vector v = true →
    ∃ j v',
      first_invalid base vectors = Some (base + j) ∧ j ≤ i ∧
      vectors !! j = Some v' ∧ invalid_vector v' = true ∧
      ∀ k u, k < j → vectors !! k = Some u → invalid_vector u = false.
Proof.
  induction vectors as [|x vectors IH]; intros base i v Hi Hv; [done|].
  simpl. destruct (invalid_vector x) eqn:Hx.
  - exists 0, x. rewrite Nat.add_0_r. split_and!; [done|lia|done|done|].
    intros k u Hk. lia.
  - destruct i as [|i]; [simpl in Hi; congruence|]. simpl in Hi.
    destruct (IH (S base) i v Hi Hv) as (j & v' & Hf & Hj & Hl & Hinv & Hmin).
    exists (S j), v'. split_and!; [|lia|done|done|].
    + rewrite Hf. f_equal. lia.
    + intros [|k] u Hk Hu; simpl in Hu; [congruence|]. apply (Hmin k); [lia|done].
Qed.

(** X9. Validation comes before any write. When some vector has no [id] or
    no [values], [upsertVectors] throws [Invalid vector at index j] for
    the first such [j] and leaves the world as it is: nothing is written,
    not even the valid vectors in front, and the store is not called. On
    the empty list it returns 0, again without calling the store. *)
Theorem upsertVectors_validates (namespace : option addr) (st : St W) :
  upsertVectors [] namespace st = (Ok 0, st) ∧
  ∀ vectors i v,
    vectors !! i = Some v → invalid_vector v = true →
    ∃ j v',
      upsertVectors vectors namespace st =
        (Throw (Error ("Invalid vector at index " +:+ pretty j)), st) ∧
      j ≤ i ∧ vectors !! j = Some v' ∧ invalid_vector v' = true ∧
      ∀ k u, k < j → vectors !! k = Some u → invalid_vector u = false.
Proof.
  split; [done|]. intros vectors i v Hi Hv.
  destruct (first_invalid_least vectors 0 i v Hi Hv)
    as (j & v' & Hf & Hj & Hl & Hinv & Hmin).
  exists j, v'. split_and!; try done.
  unfold upsertVectors. destruct vectors; [done|]. by rewrite Hf.
Qed.

End StoreEdges.

Section StoreEdgeExamples.
Import Url Effects Retry Store Worlds.

Lemma upsertVectors_validates_witness :
  let vectors := sample_vectors 150 ++ [mkVector "x" [] None] in
  vectors !! 150 = Some (mkVector "x" [] None) ∧
  invalid_vector (mkVector "x" [] None) = true ∧
  ∃ j v',
    upsertVectors (RT := sim_runtime offline) vectors None start =
      (Throw (Error ("Invalid vector at index " +:+ pretty j)), start) ∧
    j ≤ 150 ∧ vectors !! j = Some v' ∧ invalid_vector v' = true ∧
    ∀ k u, k < j → vectors !! k = Some u → invalid_vector u = false.
Proof.
  intros vectors. split; [reflexivity|]. split; [reflexivity|].
  exact (proj2 (upsertVectors_validates (RT := sim_runtime offline) None start)
           vectors 150 (mkVector "x" [] None) eq_refl eq_refl).
Defined.

End StoreEdgeExamples.

(* ===================================================================== *)
(** * What the address normalizer returns *)
(* ===================================================================== *)

Section NormalizerResults.
Import Url Utilities.








End NormalizerResults.

(* ===================================================================== *)
(** * Cleaned text *)
(* ===================================================================== *)

Section TextFacts.
Import Text.

Lemma head_rev {A} (x : list A) : head (rev x) = last x.
Proof. rewrite <- (rev_involutive x) at 2. by rewrite last_rev. Qed.

Lemma trimStart_fixed (x : jstring) :
  (∀ c, head x = Some c → is_space c = false) → trimStart x = x.
Proof. destruct x as [|c x]; [done|]. intros H. simpl. by rewrite (H c). Qed.

Lemma trimEnd_fixed (x : jstring) :
  (∀ c, last x = Some c → is_space c = false) → trimEnd x = x.
Proof.
  intros H. unfold trimEnd. rewrite trimStart_fixed; [apply rev_involutive|].
  intros c. rewrite head_rev. apply H.
Qed.

Lemma trim_idem (x : jstring) : trim (trim x) = trim x.
Proof.
  destruct (trim_ends x) as [Hh Hl].
  unfold trim at 1. rewrite trimStart_fixed by done. by apply trimEnd_fixed.
Qed.

(** [trim] cuts a piece out of the middle. *)
Lemma trim_take_drop (x : jstring) :
  trim x = take (length (trim x)) (drop (length x - length (trimStart x)) x).
Proof. unfold trim at 1. rewrite trimEnd_prefix. by rewrite <- trimStart_drop. Qed.

Lemma collapse_spaces_from_length b (x : jstring) :
  length (collapse_spaces_from b x) ≤ length x.
Proof.
  revert b. induction x as [|c x IH]; intros b; simpl; [done|].
  destruct (is_space c); [destruct b|]; simpl;
    [specialize (IH true)|specialize (IH true)|specialize (IH false)]; lia.
Qed.

Lemma collapse_spaces_true_head (x : jstring) c :
  head (collapse_spaces_from true x) = Some c → is_space c = false.
Proof.
  induction x as [|d x IH]; simpl; [done|].
  destruct (is_space d) eqn:Hd; [done|]. simpl. by intros [= <-].
Qed.

Lemma collapse_spaces_true_false (x : jstring) :
  (∀ c, head x = Some c → is_space c = false) →
  collapse_spaces_from true x = collapse_spaces_from false x.
Proof. destruct x as [|c x]; [done|]. intros H. simpl. by rewrite (H c). Qed.

Lemma collapse_spaces_from_idem (x : jstring) :
  ∀ b, collapse_spaces_from false (collapse_spaces_from b x) =
       collapse_spaces_from b x.
Proof.
  induction x as [|c x IH]; intros b; simpl; [done|].
  destruct (is_space c) eqn:Hc.
  - destruct b; [apply IH|]. simpl.
    rewrite collapse_spaces_true_false by apply collapse_spaces_true_head.
    by rewrite IH.
  - simpl. by rewrite Hc, IH.
Qed.

Lemma collapse_spaces_fixed_tail c (x : jstring) :
  collapse_spaces_from false (c :: x) = c :: x → collapse_spaces_from false x = x.
Proof.
  simpl. destruct (is_space c).
  - intros [= _ H]. rewrite <- H at 1.
    rewrite <- collapse_spaces_true_false; [|].
    + by rewrite H.
    + rewrite <- H. apply collapse_spaces_true_head.
  - by intros [= H].
Qed.

Lemma collapse_spaces_fixed_drop k (x : jstring) :
  collapse_spaces_from false x = x →
  collapse_spaces_from false (drop k x) = drop k x.
Proof.
  revert x. induction k as [|k IH]; intros x H; [by rewrite drop_0|].
  destruct x as [|c x]; [done|]. simpl. apply IH.
  by apply (collapse_spaces_fixed_tail c).
Qed.

Lemma collapse_spaces_fixed_prefix (a r : jstring) :
  ∀ b, collapse_spaces_from b (a ++ r) = a ++ r → collapse_spaces_from b a = a.
Proof.
  induction a as [|c a IH]; intros b; [done|]. simpl.
  destruct (is_space c) eqn:Hc.
  - destruct b.
    + intros H. apply (f_equal length) in H. simpl in H.
      pose proof (collapse_spaces_from_length true (a ++ r)). lia.
    + intros [= <- H]. f_equal. by apply IH.
  - intros [= H]. f_equal. by apply IH.
Qed.

Lemma collapse_spaces_fixed_trim (x : jstring) :
  collapse_spaces x = x → collapse_spaces (trim x) = trim x.
Proof.
  unfold collapse_spaces. intros H. rewrite trim_take_drop.
  set (y := drop _ x).
  apply (collapse_spaces_fixed_prefix _ (drop (length (trim x)) y)).
  rewrite take_drop. subst y. by apply collapse_spaces_fixed_drop.
Qed.

Lemma collapse_spaces_only_space b (x : jstring) c :
  c ∈ collapse_spaces_from b x → is_space c = true → c = 32%N.
Proof.
  revert b. induction x as [|d x IH]; intros b; simpl; [by intros ?%elem_of_nil|].
  destruct (is_space d) eqn:Hd.
  - destruct b; [apply IH|]. intros [->|Hin]%elem_of_cons; [done|]. by apply (IH true).
  - intros [->|Hin]%elem_of_cons; [congruence|]. by apply (IH false).
Qed.

Lemma trim_elem (x : jstring) c : c ∈ trim x → c ∈ x.
Proof.
  intros Hin. destruct (trim_spaces x) as (l & r & Hx & _).
  rewrite Hx. rewrite !elem_of_app. auto.
Qed.

(** White space in normal form: runs of white space are single spaces
    (U+0020) and there is none at either end. *)
Lemma normal_space (z : jstring) :
  let t := trim (collapse_spaces z) in
  collapse_spaces t = t ∧ trim t = t ∧
  (∀ c, c ∈ t → is_space c = true → c = 32%N) ∧
  length t ≤ length z.
Proof.
  intros t. subst t. split_and!.
  - apply collapse_spaces_fixed_trim. apply collapse_spaces_from_idem.
  - apply trim_idem.
  - intros c Hin. apply (collapse_spaces_only_space false z). by apply trim_elem.
  - destruct (trim_spaces (collapse_spaces z)) as (l & r & Hx & _).
    pose proof (collapse_spaces_from_length false z) as Hl.
    fold (collapse_spaces z) in Hl. rewrite Hx in Hl. rewrite !length_app in Hl. lia.
Qed.

Lemma remove_blocks_from_length ci open close (x : jstring) :
  ∀ skip, length (remove_blocks_from ci open close skip x) ≤ length x.
Proof.
  induction x as [|c x IH]; intros skip; simpl; [done|].
  destruct skip as [|k]; [|specialize (IH k); lia].
  destruct (if matches_at ci open (c :: x) then _ else None) as [n|].
  - specialize (IH (length open + n - 1)). lia.
  - simpl. specialize (IH 0). lia.
Qed.

Lemma replace_tags_from_length (x : jstring) :
  ∀ skip, length (replace_tags_from skip x) ≤ length x.
Proof.
  induction x as [|c x IH]; intros skip; simpl; [done|].
  destruct skip as [|k]; [|specialize (IH k); lia].
  destruct (if (c =? 60)%N then tag_body x else None) as [n|]; simpl.
  - specialize (IH n). lia.
  - specialize (IH 0). lia.
Qed.

Lemma cleanText_space (html : jstring) :
  collapse_spaces (cleanText html) = cleanText html ∧
  trim (cleanText html) = cleanText html.
Proof.
  unfold cleanText. set (z := replace_tags _).
  destruct (normal_space z) as (H1 & H2 & _). by split.
Qed.

(** X12. What [cleanText] returns is in normal form for white space: it has no
    white space at either end, every white space in it is a single space
    (U+0020), cleaning the white space again changes nothing; and it is
    never longer than the input. *)
Theorem cleanText_normal (html : jstring) :
  let t := cleanText html in
  collapse_spaces t = t ∧ trim t = t ∧
  (∀ c, head t = Some c → is_space c = false) ∧
  (∀ c, last t = Some c → is_space c = false) ∧
  (∀ c, c ∈ t → is_space c = true → c = 32%N) ∧
  length t ≤ length html.
Proof.
  intros t. subst t. unfold cleanText.
  set (z := replace_tags _).
  destruct (normal_space z) as (H1 & H2 & H3 & H4).
  destruct (trim_ends (collapse_spaces z)) as [Hh Hl].
  split_and!; try done.
  etrans; [exact H4|]. subst z. unfold replace_tags, remove_blocks.
  etrans; [apply replace_tags_from_length|].
  etrans; [apply remove_blocks_from_length|].
  etrans; [apply remove_blocks_from_length|].
  etrans; [apply remove_blocks_from_length|].
  apply remove_blocks_from_length.
Qed.

End TextFacts.

Section ScrapeFacts.
Import Url Utilities Text Effects Scraper.
Context {W : Type} {RT : Runtime W}.

(** X13. Whatever [scrapeText] returns, from the fast path or from the
    browser, is in normal form for white space. The test
    [!text || !text.trim()] of the routes therefore reduces to
    [text === ""]. *)
Theorem scrapeText_normal (rawUrl : addr) (st st' : St W) (text : jstring) :
  scrapeText rawUrl st = (Ok text, st') →
  collapse_spaces text = text ∧ trim text = text ∧
  (∀ c, c ∈ text → is_space c = true → c = 32%N) ∧
  truthy (trim text) = truthy text.
Proof.
  intros Hrun.
  assert (∃ z, text = trim (collapse_spaces z)) as [z ->].
  { revert Hrun. unfold scrapeText.
    destruct (negb (truthy rawUrl) || negb (isHttpUrl rawUrl)); [done|].
    unfold bind at 1. unfold orTypeError.
    destruct (cleanUrl DEFAULT_STRIP_PARAMS rawUrl) as [url|]; [|done].
    unfold ret at 1. unfold bind at 1, try.
    assert (∀ st1 st2 t, fetchViaBrowser url st1 = (Ok t, st2) →
              ∃ z, t = trim (collapse_spaces z)) as Hbrowser.
    { intros st1 st2 t. unfold fetchViaBrowser, bind, call.
      destruct (rt_render url (world st1)) as [[e|page] w]; [done|].
      destruct (_ && _); intros [= <- _]; [by eexists|].
      unfold cleanText. by eexists. }
    destruct (fetchViaHttp url st) as [[t|e|] st1] eqn:Hfast; [| |done].
    - destruct (truthy t && (200 <=? length t)); [|apply Hbrowser].
      intros [= <- _]. revert Hfast. unfold fetchViaHttp, bind, call.
      destruct (rt_fetch url (world st)) as [[e|res] w]; [done|].
      destruct (negb (res_ok res)); [done|].
      destruct (negb _); [done|]. intros [= <- _]. unfold cleanText. by eexists.
    - apply Hbrowser. }
  destruct (normal_space z) as (H1 & H2 & H3 & _).
  split_and!; try done. by rewrite H2.
Qed.

End ScrapeFacts.

Section ScrapeExamples.
Import Url Utilities Text Effects Scraper Worlds.

Lemma scrapeText_normal_witness :
  scrapeText (RT := sim_runtime (one_page None)) (s "https://example.com/") start =
    (Ok (lit "Hello docs"), start) ∧
  collapse_spaces (lit "Hello docs") = lit "Hello docs" ∧
  trim (lit "Hello docs") = lit "Hello docs".
Proof.
  assert (scrapeText (RT := sim_runtime (one_page None)) (s "https://example.com/") start =
            (Ok (lit "Hello docs"), start)) as Hrun by (vm_compute; reflexivity).
  split; [exact Hrun|].
  destruct (scrapeText_normal _ _ _ _ Hrun) as (H1 & H2 & _). by split.
Defined.

End ScrapeExamples.

Section MarkupFacts.
Import Text Markup.

Lemma tag_body_none (x : jstring) :
  tag_body x = None ↔ x = [] ∨ head x = Some 62%N ∨ 62%N ∉ x.
Proof.
  induction x as [|c x IH]; [by split; [left|]|].
  cbn [tag_body]. destruct (c =? 62)%N eqn:Hc.
  { apply N.eqb_eq in Hc. subst c. split; [|done]. intros _. right. by left. }
  apply N.eqb_neq in Hc.
  destruct x as [|c' x].
  { split; [|done]. intros _. right. right.
    intros Hin%list_elem_of_singleton. done. }
  destruct (c' =? 62)%N eqn:Hc'.
  { apply N.eqb_eq in Hc'. subst c'. split; [done|].
    intros [H|[H|H]]; [done|simpl in H; congruence|].
    destruct H. right. by left. }
  apply N.eqb_neq in Hc'. rewrite fmap_None, IH. split.
  - intros [H|[H|H]]; [done|simpl in H; congruence|].
    right. right. rewrite not_elem_of_cons. done.
  - intros [H|[H|H]]; [done|simpl in H; congruence|].
    right. right. by apply not_elem_of_cons in H as [_ H].
Qed.

Lemma tagless_tail c (x : jstring) : tagless (c :: x) → tagless x.
Proof. by intros [_ H]. Qed.

Lemma tagless_drop k (x : jstring) : tagless x → tagless (drop k x).
Proof.
  revert x. induction k as [|k IH]; intros x H; [by rewrite drop_0|].
  destruct x as [|c x]; [done|]. simpl. apply IH. by apply (tagless_tail c).
Qed.

Lemma tagless_prefix (a r : jstring) : tagless (a ++ r) → tagless a.
Proof.
  induction a as [|c a IH]; [done|]. simpl. intros [Hc Ht]. split; [|by apply IH].
  intros Heq. specialize (Hc Heq). apply tag_body_none in Hc. apply tag_body_none.
  destruct Hc as [Hc|[Hc|Hc]].
  - left. by destruct a.
  - destruct a as [|d a]; [by left|]. right. by left.
  - right. right. by apply not_elem_of_app in Hc as [Hc _].
Qed.

Lemma tagless_trim (x : jstring) : tagless x → tagless (trim x).
Proof.
  intros H. rewrite trim_take_drop.
  set (y := drop _ x).
  apply (tagless_prefix _ (drop (length (trim x)) y)).
  rewrite take_drop. subst y. by apply tagless_drop.
Qed.

Lemma replace_tags_from_elem (x : jstring) c :
  ∀ skip, c ∈ replace_tags_from skip x → c = 32%N ∨ c ∈ x.
Proof.
  induction x as [|d x IH]; intros skip; simpl; [by intros ?%elem_of_nil|].
  destruct skip as [|k].
  - destruct (if (d =? 60)%N then tag_body x else None) as [n|].
    + intros [->|Hin]%elem_of_cons; [by left|].
      destruct (IH n Hin); [by left|]. right. by right.
    + intros [->|Hin]%elem_of_cons; [right; by left|].
      destruct (IH 0 Hin); [by left|]. right. by right.
  - intros Hin. destruct (IH k Hin); [by left|]. right. by right.
Qed.

Lemma replace_tags_from_head (x : jstring) :
  head x = Some 62%N → head (replace_tags_from 0 x) = Some 62%N.
Proof. destruct x as [|c x]; [done|]. simpl. by intros [= ->]. Qed.

Lemma replace_tags_from_tagless (x : jstring) :
  ∀ skip, tagless (replace_tags_from skip x).
Proof.
  induction x as [|c x IH]; intros skip; simpl; [done|].
  destruct skip as [|k]; [|apply IH].
  destruct (c =? 60)%N eqn:Hc.
  - destruct (tag_body x) as [n|] eqn:Ht.
    + split; [done|apply IH].
    + split; [|apply IH]. intros _. apply tag_body_none.
      apply tag_body_none in Ht as [->|[Ht|Ht]].
      * by left.
      * right. left. by apply replace_tags_from_head.
      * right. right. intros [Hin|Hin]%replace_tags_from_elem; done.
  - split; [|apply IH]. intros ->. done.
Qed.

Lemma collapse_spaces_from_elem b (x : jstring) c :
  c ∈ collapse_spaces_from b x → c = 32%N ∨ c ∈ x.
Proof.
  revert b. induction x as [|d x IH]; intros b; simpl; [by intros ?%elem_of_nil|].
  destruct (is_space d).
  - destruct b.
    + intros Hin. destruct (IH true Hin); [by left|]. right. by right.
    + intros [->|Hin]%elem_of_cons; [by left|].
      destruct (IH true Hin); [by left|]. right. by right.
  - intros [->|Hin]%elem_of_cons; [right; by left|].
    destruct (IH false Hin); [by left|]. right. by right.
Qed.

Lemma collapse_spaces_from_tagless (x : jstring) :
  ∀ b, tagless x → tagless (collapse_spaces_from b x).
Proof.
  induction x as [|c x IH]; intros b; [done|]. intros [Hc Ht]. simpl.
  destruct (is_space c) eqn:Hs.
  - destruct b; [by apply IH|]. split; [done|by apply IH].
  - split; [|by apply IH]. intros Heq. specialize (Hc Heq).
    apply tag_body_none. apply tag_body_none in Hc as [->|[Hc|Hc]].
    + by left.
    + right. left. destruct x as [|d x]; [done|]. simpl in Hc.
      injection Hc as ->. done.
    + right. right. intros [Hin|Hin]%collapse_spaces_from_elem; done.
Qed.

Lemma replace_tags_from_fixed (x : jstring) :
  tagless x → replace_tags_from 0 x = x.
Proof.
  induction x as [|c x IH]; [done|]. intros [Hc Ht]. simpl.
  destruct (c =? 60)%N eqn:Hc'.
  - apply N.eqb_eq in Hc'. rewrite (Hc Hc'). f_equal. by apply IH.
  - f_equal. by apply IH.
Qed.

Lemma fold_case_fixed (b c : N) :
  (c < 65 ∨ 90 < c < 97 ∨ 122 < c)%N → (fold_case b = c ↔ b = c).
Proof.
  intros Hc. unfold fold_case.
  destruct ((65 <=? b)%N && (b <=? 90)%N) eqn:Hb; [|done].
  apply andb_true_iff in Hb as [H1%N.leb_le H2%N.leb_le]. lia.
Qed.

Lemma matches_at_char ci (c : N) (pat x : jstring) :
  (c < 65 ∨ 90 < c < 97 ∨ 122 < c)%N →
  matches_at ci pat x = true → c ∈ pat → c ∈ x.
Proof.
  intros Hc. revert x. induction pat as [|a pat IH]; intros x Hm Hin.
  { by apply elem_of_nil in Hin. }
  destruct x as [|b x]; [done|]. simpl in Hm.
  apply andb_true_iff in Hm as [Hab Hm].
  apply elem_of_cons in Hin as [->|Hin]; [|right; by apply IH].
  apply elem_of_cons. left. destruct ci; apply N.eqb_eq in Hab; [|done].
  symmetry. apply (fold_case_fixed b a Hc). rewrite <- Hab. unfold fold_case.
  destruct ((65 <=? a)%N && (a <=? 90)%N) eqn:Hb; [|done].
  apply andb_true_iff in Hb as [H1%N.leb_le H2%N.leb_le]. lia.
Qed.

Lemma lazy_until_char ci (close x : jstring) n :
  lazy_until ci close x = Some n → 62%N ∈ close → 62%N ∈ x.
Proof.
  intros Hl Hin. revert n Hl. induction x as [|b x IH]; intros n; simpl.
  - destruct (matches_at ci close []) eqn:Hm; [|done].
    intros _. apply (matches_at_char ci 62 close []); [lia|done|done].
  - destruct (matches_at ci close (b :: x)) eqn:Hm.
    + intros _. apply (matches_at_char ci 62 close (b :: x)); [lia|done|done].
    + destruct (lazy_until ci close x) as [m|] eqn:Hx; [|done].
      intros _. right. by apply (IH m).
Qed.

(** Nothing is removed from a text without tags by the removal of the
    blocks between [open], which starts with [<] and goes on with a
    character other than [>], and [close], which holds a [>]. *)
Lemma drop_elem {A} k (l : list A) c : c ∈ drop k l → c ∈ l.
Proof.
  revert l. induction k as [|k IH]; intros l; [by rewrite drop_0|].
  destruct l as [|d l]; [done|]. simpl. intros H. right. by apply IH.
Qed.

Lemma remove_blocks_from_fixed ci (o : N) (open close : jstring) (x : jstring) :
  o ≠ 62%N →
  62%N ∈ close →
  tagless x →
  remove_blocks_from ci (60%N :: o :: open) close 0 x = x.
Proof.
  intros Ho Hclose. induction x as [|c x IH]; [done|]. intros [Hc Ht].
  cbn [remove_blocks_from].
  destruct (matches_at ci (60%N :: o :: open) (c :: x)) eqn:Hm.
  2: { f_equal. by apply IH. }
  destruct (lazy_until ci close (drop (length (60%N :: o :: open)) (c :: x)))
    as [n|] eqn:Hl.
  2: { f_equal. by apply IH. }
  exfalso.
  cbn [matches_at] in Hm. apply andb_true_iff in Hm as [Hab Hm].
  assert (c = 60%N) as ->.
  { destruct ci; apply N.eqb_eq in Hab; [|done].
    apply (fold_case_fixed c 60); [lia|]. by rewrite <- Hab. }
  specialize (Hc eq_refl). apply tag_body_none in Hc.
  apply lazy_until_char in Hl; [|done].
  apply drop_elem in Hl. apply elem_of_cons in Hl as [Hl|Hl]; [done|].
  destruct x as [|d x]; [done|]. cbn [matches_at] in Hm.
  apply andb_true_iff in Hm as [Hod _].
  destruct Hc as [Hc|[Hc|Hc]]; [done| |done].
  simpl in Hc. injection Hc as ->. apply Ho.
  destruct ci; apply N.eqb_eq in Hod; [|done].
  apply (fold_case_fixed o 62); [lia|]. by rewrite Hod.
Qed.

(** X14. [cleanText] leaves no tag: the pattern [<[^>]+>] matches nowhere in
    what it returns. Cleaning a cleaned text again changes nothing. *)
Theorem cleanText_no_tags (html : jstring) :
  tagless (cleanText html) ∧
  cleanText (cleanText html) = cleanText html.
Proof.
  assert (tagless (cleanText html)) as Ht.
  { unfold cleanText. apply tagless_trim. apply collapse_spaces_from_tagless.
    apply replace_tags_from_tagless. }
  split; [done|].
  destruct (cleanText_space html) as (Hc & Htrim).
  set (t := cleanText html) in *.
  unfold cleanText at 1. unfold remove_blocks.
  change (lit "<script") with (60%N :: 115%N :: lit "cript").
  change (lit "<style") with (60%N :: 115%N :: lit "tyle").
  change (lit "<!--") with (60%N :: 33%N :: lit "--").
  change (lit "<noscript") with (60%N :: 110%N :: lit "oscript").
  rewrite (remove_blocks_from_fixed true 115 (lit "cript") (lit "</script>") t);
    [|done|by vm_compute; apply list_elem_of_In; simpl; tauto|done].
  rewrite (remove_blocks_from_fixed true 115 (lit "tyle") (lit "</style>") t);
    [|done|by vm_compute; apply list_elem_of_In; simpl; tauto|done].
  rewrite (remove_blocks_from_fixed false 33 (lit "--") (lit "-->") t);
    [|done|by vm_compute; apply list_elem_of_In; simpl; tauto|done].
  rewrite (remove_blocks_from_fixed true 110 (lit "oscript") (lit "</noscript>") t);
    [|done|by vm_compute; apply list_elem_of_In; simpl; tauto|done].
  unfold replace_tags. rewrite replace_tags_from_fixed by done.
  by rewrite Hc, Htrim.
Qed.

End MarkupFacts.

(* ===================================================================== *)
(** * The fetchers and the vectors of a page *)
(* ===================================================================== *)

Section FetchFacts.
Import Url Utilities Text Effects Scraper Crawl.
Context {W : Type} {RT : Runtime W}.

Lemma startsWith_lower (p x : addr) :
  startsWith p x = true → startsWith (toLowerCase p) (toLowerCase x) = true.
Proof.
  revert x. induction p as [|a p IH]; intros x; [done|].
  destruct x as [|b x]; [done|]. simpl.
  intros [Hab Hp]%andb_true_iff. apply bool_decide_eq_true in Hab. subst b.
  rewrite bool_decide_eq_true_2 by done. simpl. by apply IH.
Qed.

Lemma includes_lower (p x : addr) :
  includes p x = true → includes (toLowerCase p) (toLowerCase x) = true.
Proof.
  induction x as [|b x IH]; simpl.
  - rewrite !orb_false_r. apply (startsWith_lower p []).
  - intros [H|H]%orb_true_iff; apply orb_true_iff.
    + left. apply (startsWith_lower p (b :: x) H).
    + right. by apply IH.
Qed.

(** X15. The two fetchers on the same response. Every response that the
    crawler's [fetchHtml] accepts, the scraper's [fetchViaHttp] accepts
    too, and returns the cleaned text of the same body. The converse does
    not hold: [fetchHtml] looks for [text/html] in the content type as it
    is written, [fetchViaHttp] in its lower-cased form. *)
Theorem fetchHtml_fetchViaHttp (url : addr) (st st' : St W) (html : jstring) :
  fetchHtml url st = (Ok html, st') →
  fetchViaHttp url st = (Ok (cleanText html), st').
Proof.
  unfold fetchHtml, fetchViaHttp, bind, call.
  destruct (rt_fetch url (world st)) as [[e|res] w]; [done|].
  destruct (negb (res_ok res)); [done|].
  destruct (includes (s "text/html") (default [] (res_content_type res))) eqn:Hi;
    [|done].
  apply includes_lower in Hi.
  change (toLowerCase (s "text/html")) with (s "text/html") in Hi.
  rewrite Hi. simpl. by intros [= <- <-].
Qed.

End FetchFacts.

Section FetchExamples.
Import Url Utilities Text Effects Scraper Crawl Worlds.

Lemma fetchHtml_fetchViaHttp_witness :
  fetchHtml (RT := sim_runtime (one_page None)) (s "https://example.com/") start =
    (Ok hello, start) ∧
  fetchViaHttp (RT := sim_runtime (one_page None)) (s "https://example.com/") start =
    (Ok (lit "Hello docs"), start).
Proof.
  split; [reflexivity|].
  exact (fetchHtml_fetchViaHttp (RT := sim_runtime (one_page None))
           (s "https://example.com/") start start hello eq_refl).
Defined.

End FetchExamples.

Section VectorFacts.
Import Url Effects Crawl.

Lemma build_vectors_spec now crawled url pageTitle (chunks : list jstring) :
  ∀ embeddings i,
    i + length embeddings ≤ length chunks →
    ∃ vectors,
      build_vectors now crawled url pageTitle chunks i embeddings = Some vectors ∧
      length vectors = length embeddings ∧
      ∀ k v, vectors !! k = Some v →
        ∃ vec c,
          embeddings !! k = Some vec ∧ chunks !! (i + k) = Some c ∧
          v = mkVector (pretty now +:+ "-" +:+ pretty crawled +:+ "-" +:+ pretty (i + k))
                vec (Some (mkMetadata url pageTitle (i + k) (take 800 c))).
Proof.
  induction embeddings as [|vec rest IH]; intros i Hlen.
  - exists []. by repeat split.
  - simpl in *. destruct (chunks !! i) as [c|] eqn:Hc.
    2: { apply lookup_ge_None in Hc. lia. }
    destruct (IH (S i) ltac:(lia)) as (vectors & -> & Hl & Hv).
    eexists. split; [done|]. split; [simpl; by rewrite Hl|].
    intros [|k] v Hk; simpl in Hk.
    + injection Hk as <-. exists vec, c. rewrite Nat.add_0_r.
      split; [done|]. split; [done|]. unfold slice. by rewrite drop_0.
    + destruct (Hv k v Hk) as (vec' & c' & He & Hc' & ->).
      exists vec', c'. replace (i + S k) with (S i + k) by lia. done.
Qed.

Lemma build_vectors_short now crawled url pageTitle (chunks : list jstring) :
  ∀ embeddings i,
    i ≤ length chunks →
    length chunks < i + length embeddings →
    build_vectors now crawled url pageTitle chunks i embeddings = None.
Proof.
  induction embeddings as [|vec rest IH]; intros i Hi Hlen; simpl in *; [lia|].
  destruct (chunks !! i) as [c|] eqn:Hc; [|done].
  apply lookup_lt_Some in Hc. rewrite IH; [done|lia|lia].
Qed.

Lemma append_inj_l (a x y : string) : a +:+ x = a +:+ y → x = y.
Proof. apply String.app_inj. Qed.

(** X16. The vectors of one page. When the embedder returns no more
    embeddings than there are chunks, vector number [k] pairs embedding
    [k] with the first 800 code units of chunk [k], and the ids of the
    vectors are pairwise distinct; chunks beyond the last embedding get
    no vector. When it returns more embeddings than chunks, building the
    vectors throws. *)
Theorem build_vectors_pairs now crawled url pageTitle
    (chunks : list jstring) (embeddings : list (list Q)) :
  (length embeddings ≤ length chunks →
   ∃ vectors,
     build_vectors now crawled url pageTitle chunks 0 embeddings = Some vectors ∧
     length vectors = length embeddings ∧
     NoDup (map id vectors) ∧
     ∀ k v, vectors !! k = Some v →
       ∃ c, chunks !! k = Some c ∧
         embeddings !! k = Some (values v) ∧
         meta v = Some (mkMetadata url pageTitle k (take 800 c))) ∧
  (length chunks < length embeddings →
   build_vectors now crawled url pageTitle chunks 0 embeddings = None).
Proof.
  split.
  - intros Hlen.
    destruct (build_vectors_spec now crawled url pageTitle chunks embeddings 0
                ltac:(lia)) as (vectors & Hb & Hl & Hv).
    exists vectors. split_and!; [done|done| |].
    + apply NoDup_alt. intros k1 k2 x H1 H2.
      rewrite list_lookup_fmap in H1, H2.
      destruct (vectors !! k1) as [v1|] eqn:E1; [|done].
      destruct (vectors !! k2) as [v2|] eqn:E2; [|done].
      destruct (Hv k1 v1 E1) as (? & ? & _ & _ & ->).
      destruct (Hv k2 v2 E2) as (? & ? & _ & _ & ->).
      simpl in *. injection H1 as <-. injection H2 as H2.
      do 4 apply append_inj_l in H2. by apply pretty_nat_inj in H2.
    + intros k v Hk. destruct (Hv k v Hk) as (vec & c & He & Hc & ->).
      exists c. by split_and!.
  - intros Hlen. apply build_vectors_short; simpl; lia.
Qed.

Lemma build_vectors_pairs_witness :
  let chunks := [lit "a"; lit "b"; lit "c"] in
  (2 ≤ length chunks ∧
   ∃ vectors,
     build_vectors 7 0 (s "https://e.com/") [] chunks 0 [[1%Q]; [2%Q]] = Some vectors ∧
     map id vectors = ["7-0-0"; "7-0-1"]%string) ∧
  (length chunks < 4 ∧
   build_vectors 7 0 (s "https://e.com/") [] chunks 0 [[1%Q]; [2%Q]; [3%Q]; [4%Q]] = None).
Proof.
  intros chunks. split.
  - split; [simpl; lia|].
    destruct (proj1 (build_vectors_pairs 7 0 (s "https://e.com/") [] chunks
                       [[1%Q]; [2%Q]]) ltac:(simpl; lia)) as (vectors & Hb & _).
    exists vectors. split; [exact Hb|].
    vm_compute in Hb. by injection Hb as <-.
  - split; [simpl; lia|].
    apply (proj2 (build_vectors_pairs 7 0 (s "https://e.com/") [] chunks _)).
    simpl. lia.
Defined.

End VectorFacts.

(* ===================================================================== *)
(** * The limits of a crawl *)
(* ===================================================================== *)

Section CrawlLimits.
Import Url Utilities Text Chunker Effects Retry Store Scraper Crawl.
Context {W : Type} {RT : Runtime W}.



End CrawlLimits.

(* ===================================================================== *)
(** * The query and chat routes *)
(* ===================================================================== *)

Section SearchFacts.
Import Url Text Effects Retry Store Validation Query.
Context {W : Type} {RT : Runtime W} {SV : Services W}.

(** The retry wrapper without callback returns or throws when the
    operation does. *)
Lemma withRetry_loop_returns {A} (fn : M W A) tries baseDelayMs jitter :
  (∀ st, (fn st).1 ≠ Diverge) →
  ∀ remaining attempt lastErr st,
    (withRetry_loop fn tries baseDelayMs jitter None remaining attempt lastErr st).1
      ≠ Diverge.
Proof.
  intros Hfn remaining.
  induction remaining as [|remaining IH]; intros attempt lastErr st; [done|].
  simpl. unfold bind at 1, try. specialize (Hfn st).
  destruct (fn st) as [[v|e|] st1]; simpl in *; [done| |done].
  unfold bind at 1.
  destruct (before_retry_plain tries baseDelayMs jitter attempt e st1)
    as (w & ms & -> & _).
  apply IH.
Qed.

Lemma withRetry_returns {A} (fn : M W A) (o : retry_options W) :
  opt_onRetry o = None →
  (∀ st, (fn st).1 ≠ Diverge) →
  ∀ st, (withRetry fn o st).1 ≠ Diverge.
Proof.
  intros Ho Hfn st. unfold withRetry. rewrite Ho.
  by apply withRetry_loop_returns.
Qed.

Lemma queryVector_returns vector topK namespace (st : St W) :
  (queryVector vector topK namespace st).1 ≠ Diverge.
Proof.
  unfold queryVector. destruct vector as [[|x vector]|]; [done| |done].
  unfold bind.
  match goal with |- context [withRetry ?fn ?o st] =>
    pose proof (withRetry_returns fn o eq_refl
                  (λ st, proj1 (silent_call _ st)) st) as H;
    destruct (withRetry fn o st) as [[res|e|] st1]
  end; done.
Qed.

Lemma embedTexts_returns texts (st : St W) : (embedTexts texts st).1 ≠ Diverge.
Proof.
  unfold embedTexts. destruct texts; [done|]. apply silent_call.
Qed.

(** X18. The replies of [/query]. Every request is answered: 400 when the
    question is missing or blank, and otherwise 500 or 200. A 200 reply
    never lists a result: its [count] is 0 and its [results] are empty,
    and its [topK] is within 1..50. Whenever the store finds at least one
    match the route answers 500, because mapping the matches calls
    [safeString], which the module does not define. *)
Theorem query_route_replies (req : search_request) (st : St W) :
  (∃ reply st',
     query_route req st = (Ok reply, st') ∧
     match reply with
     | QueryBadRequest status _ =>
         status = 400 ∧
         ∀ question, sr_question req = Some question → trim question = []
     | QueryOk question namespace topK count results =>
         count = 0 ∧ results = [] ∧ (1 ≤ topK ≤ 50)%Z ∧
         namespace = sr_namespace req ∧ question ≠ [] ∧
         ∃ asked, sr_question req = Some asked ∧ question = trim asked
     | QueryServerError status _ => status = 500
     end) ∧
  (∀ question embeddings st1 m matches st2,
     sr_question req = Some question →
     trim question ≠ [] →
     embedTexts [question] st = (Ok embeddings, st1) →
     queryVector (head embeddings)
       (Some (inject_Z (normalizeTopK (sr_topK req) no_topK_options)))
       (sr_namespace req) st1 = (Ok (m :: matches), st2) →
     query_route req st =
       (Ok (QueryServerError 500 "Query failed. Please try again."), st2)).
Proof.
  split.
  - unfold query_route. destruct (sr_question req) as [question|] eqn:Hq.
    2: { eexists _, _. split; [reflexivity|]. split; [done|]. by intros. }
    destruct (negb (truthy question) || negb (truthy (trim question))) eqn:Hblank.
    { eexists _, _. split; [reflexivity|]. split; [done|].
      intros ? [= <-]. destruct question as [|c question]; [done|].
      simpl in Hblank. by destruct (trim (c :: question)). }
    apply orb_false_elim in Hblank as [_ Ht].
    assert (trim question ≠ []) as Hne by (by destruct (trim question)).
    unfold bind at 1, try. unfold bind at 1.
    pose proof (embedTexts_returns [question] st) as He.
    destruct (embedTexts [question] st) as [[embeddings|e|] st1]; simpl in He;
      [| |done].
    2: { eexists _, _. split; [reflexivity|]. done. }
    set (k := normalizeTopK _ _).
    unfold bind at 1.
    pose proof (queryVector_returns (head embeddings) (Some (inject_Z k))
                  (sr_namespace req) st1) as Hv.
    destruct (queryVector _ _ _ st1) as [[matches|e|] st2]; simpl in Hv; [| |done].
    2: { eexists _, _. split; [reflexivity|]. done. }
    destruct matches as [|m matches]; simpl.
    + eexists _, _. split; [reflexivity|]. simpl.
      pose proof (normalizeTopK_bounds (sr_topK req)) as Hk. fold k in Hk.
      split_and!; try done; try lia. by exists question.
    + eexists _, _. split; [reflexivity|]. done.
  - intros question embeddings st1 m matches st2 Hq Hne He Hv.
    unfold query_route. rewrite Hq.
    assert (negb (truthy question) || negb (truthy (trim question)) = false) as ->.
    { destruct question as [|c question]; [done|]. simpl.
      by destruct (trim (c :: question)). }
    unfold bind at 1, try. unfold bind at 1. rewrite He.
    unfold bind at 1. by rewrite Hv.
Qed.

End SearchFacts.

Section QueryFacts.
Import Url Text Effects Retry Store Validation Query.
Context {W : Type} {RT : Runtime W}.

Lemma withRetry_loop_ext {A} (fn fn' : M W A) tries baseDelayMs jitter onRetry :
  (∀ st, fn st = fn' st) →
  ∀ remaining attempt lastErr st,
    withRetry_loop fn tries baseDelayMs jitter onRetry remaining attempt lastErr st =
    withRetry_loop fn' tries baseDelayMs jitter onRetry remaining attempt lastErr st.
Proof.
  intros Hfn remaining.
  induction remaining as [|remaining IH]; intros attempt lastErr st; [done|].
  simpl. unfold bind at 1 3, try. rewrite Hfn.
  destruct (fn' st) as [[v|e|] st1]; [done| |done].
  unfold bind.
  destruct (before_retry tries baseDelayMs jitter onRetry attempt e st1)
    as [[[]|e'|] st2]; [apply IH|done|done].
Qed.

(** X19. What [queryVector] reads. Without a vector, or with an empty one,
    it throws and queries nothing. Otherwise its outcome depends on the
    store only through queries of the index of its namespace (the same
    index that [upsertVectors] writes to for that namespace) with a
    [topK] within 1..200: two stores that answer those queries alike
    make it end alike. *)
Theorem queryVector_reads (topK : option Q) (namespace : option addr) (st : St W) :
  (∀ SV : Services W,
     queryVector (SV := SV) None topK namespace st =
       (Throw (Error "queryVector: vector must be a number array"), st) ∧
     queryVector (SV := SV) (Some []) topK namespace st =
       (Throw (Error "queryVector: vector must be a number array"), st)) ∧
  (∀ (SV SV' : Services W) vector,
     (∀ k w, (1 ≤ k ≤ 200)%Z →
        rt_query (Services := SV) (getIndexForNamespace namespace) vector k w =
        rt_query (Services := SV') (getIndexForNamespace namespace) vector k w) →
     queryVector (SV := SV) (Some vector) topK namespace st =
     queryVector (SV := SV') (Some vector) topK namespace st).
Proof.
  split; [done|]. intros SV SV' vector Hsame.
  unfold queryVector. destruct vector as [|x vector]; [done|].
  cbv zeta. unfold bind, withRetry. cbn [opt_tries opt_baseDelayMs opt_jitter opt_onRetry].
  rewrite (withRetry_loop_ext
             (call (rt_query (Services := SV) (getIndexForNamespace namespace)
                      (x :: vector) (clampInt (Some (default 8%Q topK)) 1 200 8)))
             (call (rt_query (Services := SV') (getIndexForNamespace namespace)
                      (x :: vector) (clampInt (Some (default 8%Q topK)) 1 200 8)))).
  { done. }
  intros st0. unfold call. rewrite Hsame; [done|]. unfold clampInt. lia.
Qed.

End QueryFacts.

Section QueryExamples.
Import Url Text Effects Retry Store Validation Query Worlds Desk.

Lemma queryVector_reads_witness :
  queryVector (RT := sim_runtime offline) (SV := sim_services (Some [sample_hit]) None)
    (Some [1%Q]) (Some 500%Q) None start =
  queryVector (RT := sim_runtime offline)
    (SV := {| rt_query ns v k w :=
                (if bool_decide (1 ≤ k ≤ 200)%Z
                 then inr (Some [sample_hit])
                 else inl (Error "topK out of range"), w);
              rt_complete _ _ w := (inr None, w) |})
    (Some [1%Q]) (Some 500%Q) None start.
Proof.
  apply (proj2 (queryVector_reads (RT := sim_runtime offline)
                  (Some 500%Q) None start)).
  intros k w Hk. simpl. by rewrite bool_decide_eq_true_2.
Defined.

End QueryExamples.

Section ChatFacts.
Import Url Text Effects Retry Store Validation Query Chat.
Context {W : Type} {RT : Runtime W} {SV : Services W}.




End ChatFacts.

Section SearchExamples.
Import Url Text Effects Retry Store Validation Query Chat Worlds Desk.

Lemma query_route_replies_witness :
  sr_question (asking "How do I start?") = Some (lit "How do I start?") ∧
  JsString.trim (lit "How do I start?") ≠ [] ∧
  query_route (RT := sim_runtime offline) (SV := sim_services (Some [sample_hit]) None)
    (asking "How do I start?") start =
  (Ok (QueryServerError 500 "Query failed. Please try again."), start).
Proof.
  split; [reflexivity|]. split; [done|].
  exact (proj2 (query_route_replies (RT := sim_runtime offline)
                  (SV := sim_services (Some [sample_hit]) None)
                  (asking "How do I start?") start)
           (lit "How do I start?") [[1%Q]] start sample_hit [] start
           eq_refl ltac:(done) eq_refl eq_refl).
Defined.


End SearchExamples.

(* ===================================================================== *)
(** * The chunk ingestion route and what the store holds *)
(* ===================================================================== *)

Section TallyFacts.
Import Url Effects Retry Store Tally.
Context {W : Type} {RT : Runtime W}.


Lemma written_pairs (index : option addr) (batches : list (list vector)) :
  length (concat (map (pair index) batches).*2) = length (concat batches).
Proof.
  assert ((map (pair index) batches).*2 = batches) as ->; [|done].
  induction batches as [|b batches IH]; [done|].
  cbn [map fmap list_fmap]. simpl. f_equal. exact IH.
Qed.

(** What the vector store writer returns against what it wrote: it
    never writes more vectors than it was given, and when it returns, the
    count it returns is the number of vectors written, all of them. *)
Lemma upsertVectors_written vectors namespace (st : St W) :
  ∃ ms,
    (upsertVectors vectors namespace st).1 ≠ Diverge ∧
    log (upsertVectors vectors namespace st).2 = log st ++ ms ∧
    Forall store_event ms ∧
    Forall (λ c, c.1 = getIndexForNamespace namespace) (commits ms) ∧
    written ms ≤ length vectors ∧
    ∀ n, (upsertVectors vectors namespace st).1 = Ok n →
         n = written ms ∧ n = length vectors.
Proof.
  destruct vectors as [|v vs].
  { exists []. simpl. rewrite app_nil_r. split_and!; try done.
    by intros n [= <-]. }
  destruct (first_invalid 0 (v :: vs)) as [i|] eqn:Hvalid.
  { exists []. unfold upsertVectors. rewrite Hvalid. simpl. rewrite app_nil_r.
    split_and!; try done. unfold written. simpl. lia. }
  destruct (chunk_spec (v :: vs) 100 ltac:(lia)) as (batches & Hchunk & Hcat & _).
  rewrite (upsertVectors_valid _ _ batches) by done.
  destruct (upsert_batches_spec (getIndexForNamespace namespace) batches 0 st)
    as (st' & ms & k & Hlog & Hq & Hc & Hres).
  exists ms.
  assert (Forall (λ c : option addr * list vector,
                    c.1 = getIndexForNamespace namespace) (commits ms)) as Hns.
  { rewrite Hc. apply Forall_forall. by intros c (b & -> & _)%list_elem_of_fmap. }
  assert (written ms = length (concat (take k batches))) as Hw.
  { unfold written. rewrite Hc. apply written_pairs. }
  assert (written ms ≤ length (v :: vs)) as Hle.
  { rewrite Hw, <- Hcat. rewrite <- (take_drop k batches) at 2.
    rewrite concat_app, length_app. lia. }
  destruct Hres as [[-> ->]|[Hk (e & ->)]]; simpl; split_and!; try done.
  intros n [= <-]. rewrite Hw, firstn_all, Hcat. done.
Qed.

End TallyFacts.

Section IngestFacts.
Import Url Utilities Text Chunker Effects Retry Store Scraper Tally Ingest.
Context {W : Type} {RT : Runtime W}.

Lemma nonblank_chunks (text : jstring) :
  trim text ≠ [] → spec_chunks text 1200 150 ≠ [].
Proof.
  intros Hne Hnil.
  destruct (chunkText_spans_cover text 1200 150 ltac:(lia))
    as (chunks & spans & Hc & _ & _ & _ & Hblank).
  rewrite chunkText_total in Hc by lia. injection Hc as <-.
  apply Hblank in Hnil. by apply trim_all in Hnil.
Qed.

(** X21. The replies of [/ingest-url-chunks]. Every request is answered.
    Without an HTTP(S) [url] the answer is 400, and 422 [no_content] when
    the page has no text; in both cases nothing was written. The reply
    422 [no_chunks] is never given: a text that is not blank always has
    a chunk. A 200 reply counts at least one chunk, and its [upserted] is
    the number of vectors written while the request was served. Whatever
    was written went to the index of the namespace of the request. *)
Theorem ingest_url_chunks_replies (req : ingest_request) (st : St W) :
  ∃ reply st' ms,
    ingest_url_chunks req st = (Ok reply, st') ∧
    log st' = log st ++ ms ∧
    Forall store_event ms ∧
    Forall (λ c, c.1 = getIndexForNamespace (ir_namespace req)) (commits ms) ∧
    match reply with
    | IngestBadRequest status _ => status = 400 ∧ ms = []
    | IngestUnprocessable status code =>
        status = 422 ∧ code = "no_content"%string ∧ ms = []
    | IngestOk url namespace chunks upserted =>
        (∃ raw, ir_url req = Some raw ∧ isHttpUrl raw = true ∧
                cleanUrl DEFAULT_STRIP_PARAMS raw = Some url) ∧
        namespace = ir_namespace req ∧
        0 < chunks ∧ upserted = written ms
    | IngestServerError status => status = 500
    end.
Proof.
  assert (Forall (λ c : option addr * list vector,
                    c.1 = getIndexForNamespace (ir_namespace req)) (commits []))
    as Hnil by constructor.
  unfold ingest_url_chunks.
  destruct (ir_url req) as [[|c0 raw]|] eqn:Hreq;
    [by eexists _, st, []; rewrite app_nil_r| |
     by eexists _, st, []; rewrite app_nil_r].
  destruct (isHttpUrl (c0 :: raw)) eqn:Hh; simpl;
    [|by eexists _, st, []; rewrite app_nil_r].
  destruct (cleanUrl DEFAULT_STRIP_PARAMS (c0 :: raw)) as [clean|] eqn:Hc.
  2: { exfalso. unfold isHttpUrl in Hh. unfold cleanUrl in Hc.
       by destruct (URL_new (c0 :: raw)). }
  unfold bind at 1, try. unfold bind at 1, orTypeError, ret at 1. unfold bind at 1.
  destruct (scrapeText_silent clean st) as [Hd Hl].
  destruct (scrapeText clean st) as [[text|e|] st1]; simpl in Hd, Hl; [| |done].
  2: { eexists _, st1, []. by rewrite app_nil_r. }
  destruct (negb (truthy text) || negb (truthy (trim text))) eqn:Hblank.
  { eexists _, st1, []. by rewrite app_nil_r. }
  apply orb_false_elim in Hblank as [_ Ht].
  assert (trim text ≠ []) as Hne by (by destruct (trim text)).
  rewrite chunkText_total by lia. unfold total, bind at 1, ret at 1.
  pose proof (nonblank_chunks text Hne) as Hchunks.
  destruct (spec_chunks text 1200 150) as [|c chunks]; [done|].
  unfold bind at 1.
  destruct (silent_call (rt_embed (c :: chunks)) st1) as [Hd2 Hl2].
  unfold embedTexts.
  destruct (call (rt_embed (c :: chunks)) st1) as [[embeddings|e|] st2];
    simpl in Hd2, Hl2; [| |done].
  2: { eexists _, st2, []. rewrite app_nil_r. split; [reflexivity|].
       split; [congruence|]. done. }
  unfold bind at 1, ask.
  destruct (rt_now (world st2)) as [now w3]. cbv beta iota zeta.
  set (vectors := chunk_vectors _ _ _ _ _).
  unfold bind at 1.
  destruct (upsertVectors_written vectors (ir_namespace req) (mkSt w3 (log st2)))
    as (ms & Hnd & Hlog & Hq & Hns & _ & Hn).
  destruct (upsertVectors vectors (ir_namespace req) (mkSt w3 (log st2)))
    as [[n|e|] st3]; simpl in *; [| |done].
  - eexists _, st3, ms. split; [reflexivity|]. rewrite Hlog, Hl2, Hl.
    split_and!; try done.
    + by exists (c0 :: raw).
    + lia.
    + by apply Hn.
  - eexists _, st3, ms. split; [reflexivity|]. by rewrite Hlog, Hl2, Hl.
Qed.

End IngestFacts.

Section TruncationFacts.
Import Ingest.

(** X22. [safeSlice(str, max)] keeps the first [max] code units and, when
    there are more, puts its three-unit suffix in place of the rest: the
    result can be [max + 3] code units long, not [max]; a string of at
    most [max] code units is returned as it is; and slicing the result
    again changes nothing. The [trim] of the chat route does the same
    with a suffix of one code unit. *)
Theorem safeSlice_bounds (str : jstring) (max : nat) :
  length (safeSlice str max) ≤ max + 3 ∧
  (max < length str → length (safeSlice str max) = max + 3) ∧
  (length str ≤ max → safeSlice str max = str) ∧
  take max (safeSlice str max) = take max str ∧
  safeSlice (safeSlice str max) max = safeSlice str max ∧
  length (Chat.trim str max) ≤ max + 1 ∧
  (length str ≤ max → Chat.trim str max = str) ∧
  take max (Chat.trim str max) = take max str ∧
  Chat.trim (Chat.trim str max) max = Chat.trim str max.
Proof.
  unfold safeSlice, Chat.trim, slice. rewrite drop_0, Nat.sub_0_r.
  destruct (max <? length str) eqn:Hlt.
  - apply Nat.ltb_lt in Hlt.
    assert ((length str <=? max) = false) as -> by (apply Nat.leb_gt; lia).
    assert (length (take max str) = max) as Hlen by (rewrite length_take; lia).
    rewrite !length_app, !Hlen. simpl.
    assert ((max <? max + 3) = true) as -> by (apply Nat.ltb_lt; lia).
    assert ((max + 1 <=? max) = false) as -> by (apply Nat.leb_gt; lia).
    rewrite ?drop_0, ?Nat.sub_0_r, !take_app_length' by done.
    split_and!; try done; try lia.
  - apply Nat.ltb_ge in Hlt.
    assert ((length str <=? max) = true) as Hle by (by apply Nat.leb_le).
    assert ((max <? length str) = false) as Hf by (by apply Nat.ltb_ge).
    rewrite Hle, Hf, Hle. split_and!; try done; lia.
Qed.

Lemma safeSlice_bounds_witness :
  3 < length (lit "abcdef") ∧ length (lit "ab") ≤ 3 ∧
  length (safeSlice (lit "abcdef") 3) = 3 + 3 ∧
  safeSlice (lit "ab") 3 = lit "ab" ∧
  Chat.trim (lit "ab") 3 = lit "ab".
Proof.
  destruct (safeSlice_bounds (lit "abcdef") 3) as (_ & Hl & _).
  destruct (safeSlice_bounds (lit "ab") 3) as (_ & _ & Hs & _ & _ & _ & Ht & _).
  split; [simpl; lia|]. split; [simpl; lia|].
  split; [apply Hl; simpl; lia|].
  split; [apply Hs; simpl; lia|]. apply Ht. simpl. lia.
Defined.

End TruncationFacts.

Section LedgerFacts.
Import Url Utilities Text Chunker Effects Retry Store Scraper Crawl Tally.
Context {W : Type} {RT : Runtime W}.








End LedgerFacts.

Section LedgerExamples.
Import Url Utilities Text Chunker Effects Retry Store Scraper Crawl Tally Worlds.


End LedgerExamples.

(* ===================================================================== *)
(** * The web client *)
(* ===================================================================== *)

Section WebFacts.
Import Url Arrays Utilities Effects Store Crawl Web.












End WebFacts.

Section ClientFacts.
Import Url Utilities Text Chunker Effects Retry Store Scraper Crawl Web.
Context {W : Type} {RT : Runtime W}.


End ClientFacts.

Section ClientExamples.
Import Url Utilities Text Chunker Effects Retry Store Scraper Crawl Web Worlds.


End ClientExamples.
